(** * Sales analytics API: the incremental aggregation and indexing engine

    A shallow embedding of [app.py]: the record store ([transactions],
    [next_id]), the aggregate ledgers ([product_totals], [customer_totals]),
    the secondary indexes ([product_index], [customer_index]) and the request
    handlers that read and write them.

    Conventions of the embedding.
    - The module-level globals of [app.py] are the fields of one [store]
      record; every handler is a function [store -> store * response].
    - A Python [int] is a [Z].  A Python [float] is idealised as an exact
      rational ([Qc]): binary64 rounding, NaN, infinities and the
      [OverflowError] of [float(int)] are outside the model.
    - A [datetime] normalised to UTC is the instant it denotes, a [Z].
    - A [dict] that the program iterates ([transactions], the two ledgers) is
      an insertion-ordered association list; a [dict] that it only looks up
      (the two indexes) is a [gmap]; a [set] of ids is a [gset Z] together
      with the order in which the runtime enumerates it ([SetIter]).
    - A JSON payload is given by the results of the coercions the validator
      applies to its fields ([str], [int], [float], [fromisoformat]); the
      wall clock is an argument of each request. *)

From Stdlib Require Import QArith Qcanon ZArith String Ascii Lqa.
From stdpp Require Import gmap strings list numbers sorting.

Local Open Scope Z_scope.
Set Warnings "-clear-no-such-hyp".

(** ** The Python runtime: dict, set iteration, str.strip, slices, round, heapq *)

(** [dict]: insertion-ordered, keys unique.  [set] overwrites in place or
    appends; [pop] removes the key. *)
Module Dict.
Section dict.
Context {K V : Type} `{!EqDecision K}.

Fixpoint get (k : K) (d : list (K * V)) : option V :=
  match d with
  | [] => None
  | (k', v) :: d' => if decide (k = k') then Some v else get k d'
  end.

Fixpoint set (k : K) (v : V) (d : list (K * V)) : list (K * V) :=
  match d with
  | [] => [(k, v)]
  | (k', v') :: d' =>
      if decide (k = k') then (k', v) :: d' else (k', v') :: set k v d'
  end.

Fixpoint pop (k : K) (d : list (K * V)) : list (K * V) :=
  match d with
  | [] => []
  | (k', v') :: d' =>
      if decide (k = k') then pop k d' else (k', v') :: pop k d'
  end.

Definition keys (d : list (K * V)) : list K := d.*1.
Definition values (d : list (K * V)) : list V := d.*2.
End dict.
End Dict.

(** The order in which the runtime enumerates a [set] of ids.  Python leaves
    it unspecified; all that is known is that every element comes once. *)
Class SetIter := {
  set_iter : gset Z → list Z;
  set_iter_perm : ∀ X, set_iter X ≡ₚ elements X
}.

(** [str.strip()]: a string is its list of code points below 256. *)
Definition isspace (c : ascii) : bool :=
  bool_decide (N_of_ascii c ∈ [9; 10; 11; 12; 13; 28; 29; 30; 31; 32; 133; 160]%N).

Fixpoint lstrip (s : list ascii) : list ascii :=
  match s with
  | [] => []
  | c :: s' => if isspace c then lstrip s' else s
  end.

Definition strip (s : string) : string :=
  string_of_list_ascii
    (rev (lstrip (rev (lstrip (list_ascii_of_string s))))).

(** Truth value of a [str | None]. *)
Definition truthy (o : option string) : bool :=
  match o with
  | Some s => negb (String.eqb s "")
  | None => false
  end.

(** [l[start:stop]] for [0 <= start], [stop = None] or [start <= stop]. *)
Definition slice {A} (l : list A) (start : Z) (stop : option Z) : list A :=
  match stop with
  | None => drop (Z.to_nat start) l
  | Some e => take (Z.to_nat (e - start)) (drop (Z.to_nat start) l)
  end.

(** [round(x, 2)]: to the nearest multiple of 1/100, ties to the even one. *)
Definition round_half_even (x : Qc) : Z :=
  let n := Qnum (this x) in
  let d := Z.pos (Qden (this x)) in
  let q := n `div` d in
  let r2 := 2 * (n `mod` d) in
  if decide (r2 < d) then q
  else if decide (d < r2) then q + 1
  else if Z.even q then q else q + 1.

Definition round2 (x : Qc) : Qc :=
  (Qc_of_Z (round_half_even (x * Qc_of_Z 100)) / Qc_of_Z 100)%Qc.

(** [heapq.nlargest(n, iterable, key)], documented as
    [sorted(iterable, key=key, reverse=True)[:n]]: a stable descending sort,
    then the first [n]. *)
Section nlargest.
Context {A : Type} (key : A → Qc).

Fixpoint insert_desc (x : A) (l : list A) : list A :=
  match l with
  | [] => [x]
  | y :: l' =>
      if decide (key x < key y)%Qc then y :: insert_desc x l'
      else x :: l
  end.

Definition sorted_desc (l : list A) : list A := foldr insert_desc [] l.

Definition nlargest (n : Z) (l : list A) : list A :=
  take (Z.to_nat n) (sorted_desc l).
End nlargest.

(** ** Data model *)

(** A stored transaction, the dict built by [create_transaction]. *)
Module Tx.
Record t := mk {
  id : Z;
  product_id : string;
  product_name : option string;
  customer_id : string;
  customer_name : option string;
  quantity : Z;
  price : Qc;
  timestamp : Z
}.
End Tx.

(** The module-level globals. *)
Record store := Store {
  transactions : list (Z * Tx.t);
  product_totals : list (string * Qc);
  customer_totals : list (string * Qc);
  product_index : gmap string (gset Z);
  customer_index : gmap string (gset Z);
  next_id : Z
}.

Definition initial : store :=
  {| transactions := []; product_totals := []; customer_totals := [];
     product_index := ∅; customer_index := ∅; next_id := 1 |}.

(** What [_parse_timestamp] is given: a falsy value, a string that
    [datetime.fromisoformat] reads as an instant, or one that it rejects. *)
Inductive iso := IsoFalsy | IsoValid (t : Z) | IsoInvalid.

(** A JSON payload, field by field: [None] when the key is absent, otherwise
    what the coercion of the validator yields on the value ([str(v)];
    [int(v)] and [float(v)] with [None] for a [TypeError] or [ValueError]). *)
Record payload := Payload {
  pl_product_id : option string;
  pl_product_name : option string;
  pl_customer_id : option string;
  pl_customer_name : option string;
  pl_quantity : option (option Z);
  pl_price : option (option Qc);
  pl_timestamp : option iso
}.

Definition empty_payload : payload :=
  Payload None None None None None None None.

(** The [normalized] dict of the validator; a name key can hold [None]. *)
Record normalized := Normalized {
  n_product_id : option string;
  n_product_name : option (option string);
  n_customer_id : option string;
  n_customer_name : option (option string);
  n_quantity : option Z;
  n_price : option Qc;
  n_timestamp : option Z
}.

(** The query string of [GET /transactions]; [limit] and [offset] as
    [request.args.get(..., type=int)] returns them. *)
Record list_args := ListArgs {
  a_product_id : option string;
  a_customer_id : option string;
  a_start_date : option iso;
  a_end_date : option iso;
  a_min_total : option (option Qc);
  a_max_total : option (option Qc);
  a_limit : option Z;
  a_offset : option Z
}.

(** A serialized transaction: the stored fields and the rounded total. *)
Record view := View { v_tx : Tx.t; v_total : Qc }.

Inductive response :=
| Created (v : view)
| Transaction (v : view)
| Deleted (v : view)
| NotFound
| Errors (errors : list string)
| Listing (count : Z) (page : list view)
| Products (results : list (string * Qc)) (count : Z)
| Customers (results : list (string * Qc)) (count : Z)
| ServerError.

(** ** The engine *)

Definition _parse_timestamp (value : option iso) (now : Z) : option Z :=
  match value with
  | None | Some IsoFalsy => Some now
  | Some (IsoValid t) => Some t
  | Some IsoInvalid => None
  end.

Definition _transaction_total (tx : Tx.t) : Qc :=
  (Qc_of_Z (Tx.quantity tx) * Tx.price tx)%Qc.

Definition _serialize_transaction (tx : Tx.t) : view :=
  {| v_tx := tx; v_total := round2 (_transaction_total tx) |}.

(** One id field of the validator: [require_field], then the emptiness test. *)
Definition validate_id (partial : bool) (field : string) (raw : option string)
  : option string * list string :=
  match raw with
  | None => (None, if partial then [] else [field +:+ " is required"])
  | Some v =>
      let value := strip v in
      if String.eqb value "" then (None, [field +:+ " cannot be empty"])
      else (Some value, [])
  end.

Definition validate_name (raw : option string) : option (option string) :=
  match raw with
  | None => None
  | Some v => let value := strip v in
              Some (if String.eqb value "" then None else Some value)
  end.

Definition validate_quantity (partial : bool) (raw : option (option Z))
  : option Z * list string :=
  match raw with
  | None => (None, if partial then [] else ["quantity is required"%string])
  | Some (Some quantity) =>
      if decide (quantity ≤ 0) then (None, ["quantity must be a positive integer"%string])
      else (Some quantity, [])
  | Some None => (None, ["quantity must be a positive integer"%string])
  end.

Definition validate_price (partial : bool) (raw : option (option Qc))
  : option Qc * list string :=
  match raw with
  | None => (None, if partial then [] else ["price is required"%string])
  | Some (Some price) =>
      if decide (price < 0)%Qc then (None, ["price must be a non-negative number"%string])
      else (Some price, [])
  | Some None => (None, ["price must be a non-negative number"%string])
  end.

Definition validate_timestamp (raw : option iso) (now : Z)
  : option Z * list string :=
  match raw with
  | None => (None, [])
  | Some v =>
      match _parse_timestamp (Some v) now with
      | Some t => (Some t, [])
      | None => (None, ["timestamp must be ISO 8601"%string])
      end
  end.

Definition _validate_payload (data : payload) (partial : bool) (now : Z)
  : normalized * list string :=
  let '(product_id, e1) := validate_id partial "product_id" (pl_product_id data) in
  let '(customer_id, e2) := validate_id partial "customer_id" (pl_customer_id data) in
  let '(quantity, e3) := validate_quantity partial (pl_quantity data) in
  let '(price, e4) := validate_price partial (pl_price data) in
  let '(timestamp, e5) := validate_timestamp (pl_timestamp data) now in
  ({| n_product_id := product_id;
      n_product_name := validate_name (pl_product_name data);
      n_customer_id := customer_id;
      n_customer_name := validate_name (pl_customer_name data);
      n_quantity := quantity;
      n_price := price;
      n_timestamp := timestamp |},
   e1 ++ e2 ++ e3 ++ e4 ++ e5).

(** [index.setdefault(key, set()).add(tx_id)] *)
Definition index_add (key : string) (tx_id : Z) (index : gmap string (gset Z))
  : gmap string (gset Z) :=
  <[key := default ∅ (index !! key) ∪ {[tx_id]}]> index.

(** [totals[key] = totals.get(key, 0.0) + total] *)
Definition totals_add (key : string) (total : Qc) (totals : list (string * Qc))
  : list (string * Qc) :=
  Dict.set key (default 0 (Dict.get key totals) + total)%Qc totals.

(** [if key in index: index[key].discard(tx_id); if not index[key]: index.pop(key, None)] *)
Definition index_discard (key : string) (tx_id : Z) (index : gmap string (gset Z))
  : gmap string (gset Z) :=
  match index !! key with
  | Some ids =>
      let ids' := ids ∖ {[tx_id]} in
      if decide (ids' = ∅) then delete key index else <[key := ids']> index
  | None => index
  end.

(** [totals[key] = totals.get(key, 0.0) - total; if totals[key] <= 0: totals.pop(key, None)] *)
Definition totals_sub (key : string) (total : Qc) (totals : list (string * Qc))
  : list (string * Qc) :=
  let v := (default 0 (Dict.get key totals) - total)%Qc in
  let totals' := Dict.set key v totals in
  if decide (v ≤ 0)%Qc then Dict.pop key totals' else totals'.

Definition _index_transaction (tx_id : Z) (tx : Tx.t) (s : store) : store :=
  let product_id := Tx.product_id tx in
  let customer_id := Tx.customer_id tx in
  let total := _transaction_total tx in
  {| transactions := transactions s;
     product_index := index_add product_id tx_id (product_index s);
     customer_index := index_add customer_id tx_id (customer_index s);
     product_totals := totals_add product_id total (product_totals s);
     customer_totals := totals_add customer_id total (customer_totals s);
     next_id := next_id s |}.

Definition _unindex_transaction (tx_id : Z) (tx : Tx.t) (s : store) : store :=
  let product_id := Tx.product_id tx in
  let customer_id := Tx.customer_id tx in
  let total := _transaction_total tx in
  {| transactions := transactions s;
     product_index := index_discard product_id tx_id (product_index s);
     customer_index := index_discard customer_id tx_id (customer_index s);
     product_totals := totals_sub product_id total (product_totals s);
     customer_totals := totals_sub customer_id total (customer_totals s);
     next_id := next_id s |}.

(** The loop body of [_apply_filters]: [true] when [tx] is appended. *)
Definition passes (start_date end_date : option Z) (min_total max_total : option Qc)
    (tx : Tx.t) : bool :=
  let timestamp := Tx.timestamp tx in
  let total := _transaction_total tx in
  negb (from_option (λ d, bool_decide (timestamp < d)) false start_date)
  && negb (from_option (λ d, bool_decide (d < timestamp)) false end_date)
  && negb (from_option (λ m, bool_decide (total < m)%Qc) false min_total)
  && negb (from_option (λ m, bool_decide (m < total)%Qc) false max_total).

(** [candidate_ids] of [_apply_filters]: [None] when no id filter narrows. *)
Definition candidate_ids (s : store) (product_id customer_id : option string)
  : option (gset Z) :=
  let c0 :=
    if truthy product_id
    then Some (default ∅ (product_index s !! default ""%string product_id))
    else None in
  if truthy customer_id then
    let customer_set := default ∅ (customer_index s !! default ""%string customer_id) in
    Some (match c0 with None => customer_set | Some c => c ∩ customer_set end)
  else c0.

(** [_apply_filters]; [None] is the [KeyError] of [transactions[tx_id]]. *)
Definition _apply_filters `{SetIter} (s : store)
    (product_id customer_id : option string)
    (start_date end_date : option Z) (min_total max_total : option Qc)
  : option (list Tx.t) :=
  candidate_iter ←
    match candidate_ids s product_id customer_id with
    | None => Some (Dict.values (transactions s))
    | Some ids => mapM (λ tx_id, Dict.get tx_id (transactions s)) (set_iter ids)
    end;
  Some (filter (λ tx, passes start_date end_date min_total max_total tx = true)
               candidate_iter).

(** ** Request handlers *)

(** An uncaught [KeyError] in a handler is answered with [ServerError]. *)

Definition with_transactions (d : list (Z * Tx.t)) (s : store) : store :=
  {| transactions := d;
     product_totals := product_totals s; customer_totals := customer_totals s;
     product_index := product_index s; customer_index := customer_index s;
     next_id := next_id s |}.

Definition with_next_id (n : Z) (s : store) : store :=
  {| transactions := transactions s;
     product_totals := product_totals s; customer_totals := customer_totals s;
     product_index := product_index s; customer_index := customer_index s;
     next_id := n |}.

Definition create_transaction (s : store) (data : payload) (now : Z)
  : store * response :=
  let '(normalized, errors) := _validate_payload data false now in
  match errors with
  | _ :: _ => (s, Errors errors)
  | [] =>
      let tx_id := next_id s in
      let s := with_next_id (next_id s + 1) s in
      match n_product_id normalized, n_customer_id normalized,
            n_quantity normalized, n_price normalized with
      | Some product_id, Some customer_id, Some quantity, Some price =>
          let tx :=
            {| Tx.id := tx_id;
               Tx.product_id := product_id;
               Tx.product_name := default None (n_product_name normalized);
               Tx.customer_id := customer_id;
               Tx.customer_name := default None (n_customer_name normalized);
               Tx.quantity := quantity;
               Tx.price := price;
               Tx.timestamp := default now (n_timestamp normalized) |} in
          let s := with_transactions (Dict.set tx_id tx (transactions s)) s in
          (_index_transaction tx_id tx s,
           Created (_serialize_transaction tx))
      | _, _, _, _ => (s, ServerError)
      end
  end.

(** The [try] blocks of [list_transactions]; [None] is the [ValueError]. *)
Definition date_arg (value : option iso) (now : Z) : option (option Z) :=
  match value with
  | None | Some IsoFalsy => Some None
  | Some v => Some <$> _parse_timestamp (Some v) now
  end.

Definition total_arg (value : option (option Qc)) : option (option Qc) :=
  match value with
  | None => Some None
  | Some v => Some <$> v
  end.

Definition list_transactions `{SetIter} (s : store) (args : list_args) (now : Z)
  : store * response :=
  let product_id := a_product_id args in
  let customer_id := a_customer_id args in
  match date_arg (a_start_date args) now, date_arg (a_end_date args) now with
  | Some start_dt, Some end_dt =>
      match total_arg (a_min_total args), total_arg (a_max_total args) with
      | Some min_total_val, Some max_total_val =>
          match _apply_filters s product_id customer_id start_dt end_dt
                  min_total_val max_total_val with
          | Some results =>
              let limit := a_limit args in
              let offset := default 0 (a_offset args) in
              let offset := if decide (offset < 0) then 0 else offset in
              let limit :=
                match limit with
                | Some l => if decide (l < 0) then None else Some l
                | None => None
                end in
              let sliced := slice results offset ((λ l, offset + l) <$> limit) in
              (s, Listing (Z.of_nat (length results))
                          (_serialize_transaction <$> sliced))
          | None => (s, ServerError)
          end
      | _, _ => (s, Errors ["min_total/max_total must be numbers"%string])
      end
  | _, _ => (s, Errors ["timestamp must be ISO 8601"%string])
  end.

Definition get_transaction (s : store) (tx_id : Z) : store * response :=
  match Dict.get tx_id (transactions s) with
  | None => (s, NotFound)
  | Some tx => (s, Transaction (_serialize_transaction tx))
  end.

Definition update_transaction (s : store) (tx_id : Z) (data : payload) (now : Z)
  : store * response :=
  match Dict.get tx_id (transactions s) with
  | None => (s, NotFound)
  | Some tx =>
      let '(normalized, errors) := _validate_payload data true now in
      match errors with
      | _ :: _ => (s, Errors errors)
      | [] =>
          let s := _unindex_transaction tx_id tx s in
          let tx' :=
            {| Tx.id := Tx.id tx;
               Tx.product_id := default (Tx.product_id tx) (n_product_id normalized);
               Tx.product_name := default (Tx.product_name tx) (n_product_name normalized);
               Tx.customer_id := default (Tx.customer_id tx) (n_customer_id normalized);
               Tx.customer_name := default (Tx.customer_name tx) (n_customer_name normalized);
               Tx.quantity := default (Tx.quantity tx) (n_quantity normalized);
               Tx.price := default (Tx.price tx) (n_price normalized);
               Tx.timestamp := default (Tx.timestamp tx) (n_timestamp normalized) |} in
          let s := with_transactions (Dict.set tx_id tx' (transactions s)) s in
          (_index_transaction tx_id tx' s,
           Transaction (_serialize_transaction tx'))
      end
  end.

Definition delete_transaction (s : store) (tx_id : Z) : store * response :=
  let tx := Dict.get tx_id (transactions s) in
  let s := with_transactions (Dict.pop tx_id (transactions s)) s in
  match tx with
  | None => (s, NotFound)
  | Some tx =>
      (_unindex_transaction tx_id tx s, Deleted (_serialize_transaction tx))
  end.

(** One row of an analytics answer: the key and [round(total, 2)]. *)
Definition rounded (item : string * Qc) : string * Qc :=
  (item.1, round2 item.2).

Definition total_sales_per_product (s : store) : store * response :=
  let results := rounded <$> product_totals s in
  let results := sorted_desc snd results in
  (s, Products results (Z.of_nat (length results))).

Definition top_customers (s : store) (limit : option Z) : store * response :=
  let limit := default 10 limit in
  if decide (limit ≤ 0) then (s, Errors ["limit must be positive"%string])
  else
    let top := nlargest snd limit (customer_totals s) in
    let results := rounded <$> top in
    (s, Customers results (Z.of_nat (length results))).

(** The routes that read or write the store. *)
Inductive request :=
| POST_transactions (data : payload)
| GET_transactions (args : list_args)
| GET_transaction (tx_id : Z)
| PUT_transaction (tx_id : Z) (data : payload)
| DELETE_transaction (tx_id : Z)
| GET_total_sales_per_product
| GET_top_customers (limit : option Z).

Definition handle `{SetIter} (s : store) (now : Z) (r : request)
  : store * response :=
  match r with
  | POST_transactions data => create_transaction s data now
  | GET_transactions args => list_transactions s args now
  | GET_transaction tx_id => get_transaction s tx_id
  | PUT_transaction tx_id data => update_transaction s tx_id data now
  | DELETE_transaction tx_id => delete_transaction s tx_id
  | GET_total_sales_per_product => total_sales_per_product s
  | GET_top_customers limit => top_customers s limit
  end.

(** Requests are served one at a time, each at its own clock reading. *)
Fixpoint serve `{SetIter} (s : store) (reqs : list (Z * request))
  : store * list response :=
  match reqs with
  | [] => (s, [])
  | (now, r) :: reqs' =>
      let '(s', resp) := handle s now r in
      let '(s'', resps) := serve s' reqs' in
      (s'', resp :: resps)
  end.

Definition run `{SetIter} (reqs : list (Z * request)) : store :=
  (serve initial reqs).1.

(** ** Derived state recomputed from the record set *)

(** The ids of the live records whose [field] is [key]. *)
Definition ids_of (field : Tx.t → string) (key : string) (d : list (Z * Tx.t))
  : gset Z :=
  list_to_set (filter (λ kv, field kv.2 = key) d).*1.

(** The sum of [quantity * price] over the live records whose [field] is [key]. *)
Definition sum_of (field : Tx.t → string) (key : string) (d : list (Z * Tx.t))
  : Qc :=
  foldr Qcplus 0%Qc
    (_transaction_total <$> filter (λ tx, field tx = key) (Dict.values d)).

(** An index agrees with a family of id sets: the sets are stored, the empty
    ones as absent keys. *)
Definition index_rel (index : gmap string (gset Z)) (I : string → gset Z) : Prop :=
  ∀ key, index !! key = if decide (I key = ∅) then None else Some (I key).

(** A ledger agrees with a family of sums: looked up with default 0. *)
Definition totals_rel (totals : list (string * Qc)) (S : string → Qc) : Prop :=
  ∀ key, default 0%Qc (Dict.get key totals) = S key.

(** What an accepted payload guarantees about its normalized fields. *)
Record accepted (partial : bool) (n : normalized) : Prop := {
  acc_product_id : ∀ x, n_product_id n = Some x → x ≠ ""%string;
  acc_customer_id : ∀ x, n_customer_id n = Some x → x ≠ ""%string;
  acc_quantity : ∀ q, n_quantity n = Some q → 0 < q;
  acc_price : ∀ p, n_price n = Some p → (0 ≤ p)%Qc;
  acc_required : partial = false →
    is_Some (n_product_id n) ∧ is_Some (n_customer_id n)
    ∧ is_Some (n_quantity n) ∧ is_Some (n_price n)
}.

(** ** Consistency of the store *)

Definition valid (tx : Tx.t) : Prop :=
  0 < Tx.quantity tx ∧ (0 ≤ Tx.price tx)%Qc
  ∧ Tx.product_id tx ≠ ""%string ∧ Tx.customer_id tx ≠ ""%string.

(** The ledgers and indexes are the ones derived from the record set, ids
    are below the counter, and every record is a validated one. *)
Record consistent (s : store) : Prop := {
  c_nodup : NoDup (Dict.keys (transactions s));
  c_bound : ∀ k, k ∈ Dict.keys (transactions s) → 1 ≤ k < next_id s;
  c_next : 1 ≤ next_id s;
  c_id : ∀ k tx, (k, tx) ∈ transactions s → Tx.id tx = k;
  c_valid : ∀ k tx, (k, tx) ∈ transactions s → valid tx;
  c_product_index :
    index_rel (product_index s) (λ key, ids_of Tx.product_id key (transactions s));
  c_customer_index :
    index_rel (customer_index s) (λ key, ids_of Tx.customer_id key (transactions s));
  c_product_totals :
    totals_rel (product_totals s) (λ key, sum_of Tx.product_id key (transactions s));
  c_customer_totals :
    totals_rel (customer_totals s) (λ key, sum_of Tx.customer_id key (transactions s));
  c_sorted : StronglySorted Z.lt (Dict.keys (transactions s))
}.

(** ** The properties under study *)






(** The top-N contract, for a given way [render] of reporting an entry: a
    non-positive limit is refused; otherwise the answer lists the first
    [min(N, entries)] entries in descending order of total, none of the
    entries left out having a larger total than one listed. *)
Definition top_n_contract (render : string * Qc → string * Qc)
    (s : store) (limit : Z) : Prop :=
  (limit ≤ 0 →
   top_customers s (Some limit) = (s, Errors ["limit must be positive"%string]))
  ∧ (0 < limit →
     ∃ top rest : list (string * Qc),
       top_customers s (Some limit)
       = (s, Customers (render <$> top) (Z.of_nat (length top)))
       ∧ customer_totals s ≡ₚ top ++ rest
       ∧ length top = (Z.to_nat limit `min` length (customer_totals s))%nat
       ∧ StronglySorted (λ x y, (y.2 ≤ x.2)%Qc) top
       ∧ ∀ x y, x ∈ top → y ∈ rest → (y.2 ≤ x.2)%Qc).

(** A listing query whose filters are all well-formed: each one absent or a
    value of its type. *)
Record query := Query {
  q_product_id : option string;
  q_customer_id : option string;
  q_start_date : option Z;
  q_end_date : option Z;
  q_min_total : option Qc;
  q_max_total : option Qc;
  q_limit : option Z;
  q_offset : option Z
}.

(** The query string that carries it. *)
Definition args_of (q : query) : list_args :=
  {| a_product_id := q_product_id q;
     a_customer_id := q_customer_id q;
     a_start_date := IsoValid <$> q_start_date q;
     a_end_date := IsoValid <$> q_end_date q;
     a_min_total := Some <$> q_min_total q;
     a_max_total := Some <$> q_max_total q;
     a_limit := q_limit q;
     a_offset := q_offset q |}.

(** A filter constrains only when it is supplied. *)
Definition when {A} (o : option A) (P : A → Prop) : Prop :=
  match o with Some a => P a | None => True end.

#[global] Instance when_dec {A} (o : option A) (P : A → Prop)
    `{!∀ a, Decision (P a)} : Decision (when o P) :=
  match o with Some a => decide (P a) | None => left I end.

(** An id filter is supplied when it is a non-empty string. *)
Definition supplied (value : option string) : option string :=
  match value with
  | Some v => if decide (v = ""%string) then None else Some v
  | None => None
  end.

(** The predicates of a query: exact match on the ids, inclusive bounds on
    the timestamp and on the total. *)
Definition matches (q : query) (tx : Tx.t) : Prop :=
  when (supplied (q_product_id q)) (λ p, Tx.product_id tx = p)
  ∧ when (supplied (q_customer_id q)) (λ c, Tx.customer_id tx = c)
  ∧ when (q_start_date q) (λ d, d ≤ Tx.timestamp tx)
  ∧ when (q_end_date q) (λ d, Tx.timestamp tx ≤ d)
  ∧ when (q_min_total q) (λ m, (m ≤ _transaction_total tx)%Qc)
  ∧ when (q_max_total q) (λ m, (_transaction_total tx ≤ m)%Qc).

#[global] Instance matches_dec q tx : Decision (matches q tx) :=
  and_dec _ (and_dec _ (and_dec _ (and_dec _ (and_dec _ _)))).

(** The live records that satisfy a query, in the order of the record set. *)
Definition filtered (s : store) (q : query) : list Tx.t :=
  filter (matches q) (Dict.values (transactions s)).

(** What [_apply_filters] returns for a query. *)
Definition listing_of `{SetIter} (s : store) (q : query) : option (list Tx.t) :=
  _apply_filters s (q_product_id q) (q_customer_id q)
    (q_start_date q) (q_end_date q) (q_min_total q) (q_max_total q).

(** The page of a result: from [offset], negative taken as 0, at most
    [limit] elements, all of them when the limit is negative or absent. *)
Definition page {A} (limit offset : option Z) (l : list A) : list A :=
  let rest := drop (Z.to_nat (0 `max` default 0 offset)) l in
  match limit with
  | Some n => if decide (n < 0) then rest else take (Z.to_nat n) rest
  | None => rest
  end.





(** ** Sample inputs *)

(** A runtime that enumerates a set of ids by slot [id mod 8], as CPython
    does for a collision-free set of at most four small ids: the table has
    8 slots and [hash(i) = i]. *)
Definition slot_le (x y : Z) : Prop := x `mod` 8 ≤ y `mod` 8.

#[local] Instance slot_le_dec : RelDecision slot_le :=
  λ x y, Z.le_dec (x `mod` 8) (y `mod` 8).

Definition cpython_table : SetIter :=
  {| set_iter X := merge_sort slot_le (elements X);
     set_iter_perm X := merge_sort_Permutation slot_le (elements X) |}.

(** [POST /transactions] with the four required fields. *)
Definition sale (product_id customer_id : string) (quantity : Z) (price : Qc)
  : Z * request :=
  (0, POST_transactions
        (Payload (Some product_id) None (Some customer_id) None
                 (Some (Some quantity)) (Some (Some price)) None)).


(** The third scenario of the test suite. *)
Definition three_sales : list (Z * request) :=
  [sale "P1" "C1" 1 (Qc_of_Z 5); sale "P1" "C2" 1 (Qc_of_Z 15);
   sale "P2" "C2" 1 (Qc_of_Z 25)].


(** The listing without any filter. *)
Definition everything : query :=
  Query None None None None None None None None.


(** ** Further properties: what they speak of *)

(** A field the validator requires: when present its value passes the test;
    it is absent only from a partial payload. *)
Definition field_ok {A} (partial : bool) (raw : option A) (P : A → Prop) : Prop :=
  match raw with Some v => P v | None => partial = true end.

(** The payloads the validator accepts. *)
Definition well_formed (partial : bool) (data : payload) : Prop :=
  field_ok partial (pl_product_id data) (λ v, strip v ≠ ""%string)
  ∧ field_ok partial (pl_customer_id data) (λ v, strip v ≠ ""%string)
  ∧ field_ok partial (pl_quantity data) (λ v, ∃ q, v = Some q ∧ 0 < q)
  ∧ field_ok partial (pl_price data) (λ v, ∃ p, v = Some p ∧ (0 ≤ p)%Qc)
  ∧ when (pl_timestamp data) (λ v, v ≠ IsoInvalid).

(** What the validator makes of an accepted payload: ids stripped, a blank
    name turned into [None], numbers as read, the timestamp parsed. *)
Definition normal_form (data : payload) (now : Z) : normalized :=
  {| n_product_id := strip <$> pl_product_id data;
     n_product_name := validate_name (pl_product_name data);
     n_customer_id := strip <$> pl_customer_id data;
     n_customer_name := validate_name (pl_customer_name data);
     n_quantity := mjoin (pl_quantity data);
     n_price := mjoin (pl_price data);
     n_timestamp := pl_timestamp data ≫= λ v, _parse_timestamp (Some v) now |}.

(** The record that an update makes of [tx] with the normalized fields [n]. *)
Definition updated (tx : Tx.t) (n : normalized) : Tx.t :=
  {| Tx.id := Tx.id tx;
     Tx.product_id := default (Tx.product_id tx) (n_product_id n);
     Tx.product_name := default (Tx.product_name tx) (n_product_name n);
     Tx.customer_id := default (Tx.customer_id tx) (n_customer_id n);
     Tx.customer_name := default (Tx.customer_name tx) (n_customer_name n);
     Tx.quantity := default (Tx.quantity tx) (n_quantity n);
     Tx.price := default (Tx.price tx) (n_price n);
     Tx.timestamp := default (Tx.timestamp tx) (n_timestamp n) |}.

(** The sum of the entries of a ledger. *)
Definition ledger_sum (totals : list (string * Qc)) : Qc :=
  foldr Qcplus 0%Qc (Dict.values totals).

(** The sum of [quantity * price] over all live records. *)
Definition revenue (d : list (Z * Tx.t)) : Qc :=
  foldr Qcplus 0%Qc (_transaction_total <$> Dict.values d).

(** A ledger has one entry per key and adds up to the revenue. *)
Definition balanced (totals : list (string * Qc)) (d : list (Z * Tx.t)) : Prop :=
  NoDup (Dict.keys totals) ∧ ledger_sum totals = revenue d.

(** A query with its page replaced. *)
Definition paged (q : query) (limit offset : option Z) : query :=
  {| q_product_id := q_product_id q; q_customer_id := q_customer_id q;
     q_start_date := q_start_date q; q_end_date := q_end_date q;
     q_min_total := q_min_total q; q_max_total := q_max_total q;
     q_limit := limit; q_offset := offset |}.

(** A record as the validator leaves it: ids stripped, a name stripped and
    not blank. *)
Definition trimmed (tx : Tx.t) : Prop :=
  strip (Tx.product_id tx) = Tx.product_id tx
  ∧ strip (Tx.customer_id tx) = Tx.customer_id tx
  ∧ (∀ name, Tx.product_name tx = Some name →
             strip name = name ∧ name ≠ ""%string)
  ∧ (∀ name, Tx.customer_name tx = Some name →
             strip name = name ∧ name ≠ ""%string).

(** * Facts *)

(** ** The dict operations *)

Module DictFacts.
Import Dict.
Section dict.
Context {K V : Type} `{!EqDecision K}.
Implicit Types (k : K) (v : V) (d : list (K * V)).

Lemma get_set_eq k v d : get k (set k v d) = Some v.
Proof.
  induction d as [|[k' v'] d IH]; simpl; repeat case_decide; simpl;
    repeat case_decide; congruence.
Qed.

Lemma get_set_ne k k' v d : k ≠ k' → get k' (set k v d) = get k' d.
Proof.
  intros Hne. induction d as [|[k0 v0] d IH]; simpl;
    repeat (case_decide; simpl); congruence.
Qed.

Lemma get_pop_eq k d : get k (pop k d) = None.
Proof.
  induction d as [|[k' v'] d IH]; simpl; repeat (case_decide; simpl);
    congruence.
Qed.

Lemma get_pop_ne k k' d : k ≠ k' → get k' (pop k d) = get k' d.
Proof.
  intros Hne. induction d as [|[k0 v0] d IH]; simpl;
    repeat (case_decide; simpl); congruence.
Qed.

Lemma pop_absent k d : get k d = None → pop k d = d.
Proof.
  induction d as [|[k' v'] d IH]; simpl; [done|].
  case_decide; [done|]. intros Hg. by rewrite IH.
Qed.


Lemma get_None_keys k d : get k d = None ↔ k ∉ keys d.
Proof.
  unfold keys. induction d as [|[k' v'] d IH]; simpl.
  - split; [intros _; apply not_elem_of_nil | done].
  - rewrite not_elem_of_cons. case_decide; [|tauto].
    split; [done|]. intros [? _]. congruence.
Qed.

Lemma get_Some_elem k v d : get k d = Some v → (k, v) ∈ d.
Proof.
  induction d as [|[k' v'] d IH]; simpl; [done|].
  case_decide; intros Hg.
  - simplify_eq. left.
  - right. auto.
Qed.

Lemma elem_get k v d : NoDup (keys d) → (k, v) ∈ d → get k d = Some v.
Proof.
  unfold keys. induction d as [|[k' v'] d IH]; simpl.
  - intros _ H. by apply elem_of_nil in H.
  - rewrite NoDup_cons, elem_of_cons. intros [Hk Hd] [H|H].
    + simplify_eq. by rewrite decide_True.
    + rewrite decide_False; [auto|]. intros ->.
      apply Hk. apply list_elem_of_fmap. by exists (k', v).
Qed.

Lemma keys_set_present k v d : is_Some (get k d) → keys (set k v d) = keys d.
Proof.
  unfold keys. induction d as [|[k' v'] d IH]; simpl.
  - by intros [? ?].
  - case_decide; simpl; [done|]. intros Hg. f_equal. auto.
Qed.

Lemma keys_pop_subseteq k d : keys (pop k d) ⊆ keys d.
Proof.
  unfold keys. induction d as [|[k' v'] d IH]; simpl; [done|].
  case_decide; simpl; intros x; rewrite ?elem_of_cons; intros Hx.
  - right. by apply IH.
  - destruct Hx as [->|Hx]; [by left | right; by apply IH].
Qed.

Lemma NoDup_keys_pop k d : NoDup (keys d) → NoDup (keys (pop k d)).
Proof.
  unfold keys. induction d as [|[k' v'] d IH]; simpl; [done|].
  rewrite NoDup_cons. intros [Hk Hd]. case_decide; [auto|].
  simpl. apply NoDup_cons. split; [|auto].
  intros H'. apply Hk. by apply (keys_pop_subseteq k).
Qed.
Lemma elem_of_pop k k' v d : (k', v) ∈ pop k d ↔ (k', v) ∈ d ∧ k' ≠ k.
Proof.
  induction d as [|[k0 v0] d IH]; simpl.
  - split; [intros Hx|intros [Hx _]]; by apply elem_of_nil in Hx.
  - case_decide as Hk; rewrite ?elem_of_cons, IH.
    + split; [tauto|]. intros [[Heq|Hin] Hne]; [congruence|done].
    + split; [|tauto]. intros [Heq|[Hin Hne]]; [|tauto].
      split; [by left|congruence].
Qed.

Lemma elem_of_set k v k' v' d :
  NoDup (keys d) →
  (k', v') ∈ set k v d ↔ (k' = k ∧ v' = v) ∨ (k' ≠ k ∧ (k', v') ∈ d).
Proof.
  unfold keys. induction d as [|[k0 v0] d IH]; simpl.
  - intros _. rewrite list_elem_of_singleton. split.
    + intros [= -> ->]. by left.
    + intros [[-> ->]|[_ Hx]]; [done|by apply elem_of_nil in Hx].
  - rewrite NoDup_cons. intros [Hk0 Hd].
    case_decide as Hk; rewrite !elem_of_cons.
    + subst k0. split.
      * intros [[= -> ->]|Hin]; [by left|]. right. split; [|by right].
        intros ->. apply Hk0. apply list_elem_of_fmap. by exists (k, v').
      * intros [[-> ->]|[Hne [[= ? ?]|Hin]]]; [by left|done|by right].
    + rewrite (IH Hd). split.
      * intros [[= -> ->]|[?|[? ?]]]; [|by left|].
        -- right. split; [congruence|by left].
        -- right. split; [done|by right].
      * intros [?|[Hne [[= -> ->]|Hin]]]; [right; by left|by left|].
        right. right. done.
Qed.

Lemma keys_set k v d :
  keys (set k v d) =
  match get k d with Some _ => keys d | None => keys d ++ [k] end.
Proof.
  unfold keys. induction d as [|[k0 v0] d IH]; [done|].
  cbn [set get]. case_decide; [done|].
  rewrite !fmap_cons, IH. by destruct (get k d).
Qed.

Lemma NoDup_keys_set k v d : NoDup (keys d) → NoDup (keys (set k v d)).
Proof.
  intros Hd. rewrite keys_set. destruct (get k d) eqn:Hg; [done|].
  apply NoDup_app. split_and!; [done| |apply NoDup_singleton].
  intros x Hx ->%list_elem_of_singleton. by apply get_None_keys in Hg.
Qed.


Lemma StronglySorted_keys_pop (R : relation K) k d :
  StronglySorted R (keys d) → StronglySorted R (keys (pop k d)).
Proof.
  unfold keys. induction d as [|[k0 v0] d IH]; [done|].
  rewrite fmap_cons. cbn [pop fst]. intros [Hd Hk0]%StronglySorted_inv.
  case_decide; [auto|]. rewrite fmap_cons. constructor; [auto|].
  apply Forall_forall. intros x Hx%(keys_pop_subseteq k).
  by apply (proj1 (Forall_forall _ _) Hk0).
Qed.
End dict.
End DictFacts.

(** ** The indexing protocol *)

Section protocol.
Implicit Types (index : gmap string (gset Z)) (totals : list (string * Qc)).
Implicit Types (I : string → gset Z) (S : string → Qc).

Lemma index_add_rel index I I' kf tx_id :
  index_rel index I →
  (∀ key, I' key = I key ∪ (if decide (key = kf) then {[tx_id]} else ∅)) →
  index_rel (index_add kf tx_id index) I'.
Proof.
  intros HI HI' key. unfold index_add. rewrite HI'.
  destruct (decide (key = kf)) as [->|Hne].
  - rewrite lookup_insert_eq, HI.
    assert (I kf ∪ {[tx_id]} ≠ (∅ : gset Z)) as Hne by set_solver.
    rewrite (decide_False _ _ Hne).
    f_equal. case_decide as Hemp; simpl; [by rewrite Hemp|done].
  - rewrite lookup_insert_ne by done. rewrite HI.
    by rewrite (right_id_L ∅ (∪)).
Qed.

Lemma index_discard_rel index I I' kf tx_id :
  index_rel index I →
  (∀ key, I' key = if decide (key = kf) then I key ∖ {[tx_id]} else I key) →
  index_rel (index_discard kf tx_id index) I'.
Proof.
  intros HI HI' key. unfold index_discard.
  pose proof (HI kf) as Hkf. pose proof (HI' kf) as Hkf'.
  rewrite decide_True in Hkf' by done.
  destruct (decide (key = kf)) as [->|Hne].
  - destruct (index !! kf) as [ids|] eqn:Hlk.
    + case_decide as HIe; [done|]. injection Hkf as ->.
      rewrite <-Hkf'.
      case_decide as He;
        [by rewrite lookup_delete_eq | by rewrite lookup_insert_eq].
    + case_decide as HIe; [|done].
      rewrite Hlk, Hkf', HIe. by rewrite decide_True by set_solver.
  - assert (I' key = I key) as ->.
    { rewrite HI'. by rewrite decide_False. }
    rewrite <-HI. clear Hkf Hkf'. destruct (index !! kf) as [ids|]; [|done].
    case_decide; [by rewrite lookup_delete_ne|by rewrite lookup_insert_ne].
Qed.

Lemma totals_add_rel totals S S' kf total :
  totals_rel totals S →
  (∀ key, S' key = (S key + (if decide (key = kf) then total else 0))%Qc) →
  totals_rel (totals_add kf total totals) S'.
Proof.
  intros HS HS' key. unfold totals_add. rewrite HS'.
  destruct (decide (key = kf)) as [->|Hne].
  - rewrite DictFacts.get_set_eq. simpl. by rewrite HS.
  - rewrite DictFacts.get_set_ne by done. rewrite HS. ring.
Qed.

Lemma totals_sub_rel totals S S' kf total :
  totals_rel totals S →
  (∀ key, S' key = (S key - (if decide (key = kf) then total else 0))%Qc) →
  (0 ≤ S' kf)%Qc →
  totals_rel (totals_sub kf total totals) S'.
Proof.
  intros HS HS' Hpos key. unfold totals_sub.
  pose proof (HS' kf) as Hkf. rewrite decide_True in Hkf by done.
  rewrite HS, <-Hkf.
  destruct (decide (key = kf)) as [->|Hne].
  - case_decide as Hle.
    + rewrite DictFacts.get_pop_eq. simpl. by apply Qcle_antisym.
    + by rewrite DictFacts.get_set_eq.
  - assert (S' key = S key) as ->.
    { rewrite HS'. rewrite decide_False by done. ring. }
    rewrite <-HS.
    case_decide; [rewrite DictFacts.get_pop_ne by done|];
      by rewrite DictFacts.get_set_ne.
Qed.
End protocol.

Section derived.
Context (field : Tx.t → string).
Implicit Types (d : list (Z * Tx.t)) (key : string) (k : Z) (tx : Tx.t).

Lemma elem_of_ids_of key k d :
  k ∈ ids_of field key d ↔ ∃ tx, (k, tx) ∈ d ∧ field tx = key.
Proof.
  unfold ids_of. rewrite elem_of_list_to_set, list_elem_of_fmap. split.
  - intros [[k' tx] [-> [Hf Hin]%list_elem_of_filter]]. by exists tx.
  - intros (tx & Hin & Hf). exists (k, tx). split; [done|].
    by apply list_elem_of_filter.
Qed.

Lemma ids_of_pop key k d :
  ids_of field key (Dict.pop k d) = ids_of field key d ∖ {[k]}.
Proof.
  apply set_eq. intros x.
  rewrite elem_of_difference, !elem_of_ids_of, not_elem_of_singleton.
  setoid_rewrite DictFacts.elem_of_pop. naive_solver.
Qed.

Lemma ids_of_set key k tx d :
  NoDup (Dict.keys d) →
  ids_of field key (Dict.set k tx d) =
  ids_of field key (Dict.pop k d) ∪ (if decide (key = field tx) then {[k]} else ∅).
Proof.
  intros Hd. apply set_eq. intros x.
  rewrite elem_of_union, !elem_of_ids_of.
  setoid_rewrite DictFacts.elem_of_pop. setoid_rewrite (DictFacts.elem_of_set _ _ _ _ _ Hd).
  case_decide as Hf; [rewrite elem_of_singleton|rewrite elem_of_empty];
    naive_solver.
Qed.

Lemma ids_of_other key k tx d :
  NoDup (Dict.keys d) → Dict.get k d = Some tx → key ≠ field tx →
  k ∉ ids_of field key d.
Proof.
  intros Hd Hg Hne (tx' & Hin & Hf)%elem_of_ids_of.
  apply (DictFacts.elem_get _ _ _ Hd) in Hin. congruence.
Qed.

Lemma sum_of_cons key k tx d :
  sum_of field key ((k, tx) :: d) =
  ((if decide (key = field tx) then _transaction_total tx else 0)
   + sum_of field key d)%Qc.
Proof.
  unfold sum_of, Dict.values. rewrite fmap_cons, filter_cons. simpl.
  destruct (decide (field tx = key)), (decide (key = field tx));
    try congruence; simpl; [done|ring].
Qed.

Lemma sum_of_pop key k tx d :
  NoDup (Dict.keys d) → Dict.get k d = Some tx →
  sum_of field key (Dict.pop k d) =
  (sum_of field key d
   - (if decide (key = field tx) then _transaction_total tx else 0))%Qc.
Proof.
  unfold Dict.keys. induction d as [|[k0 tx0] d IH]; [done|].
  rewrite fmap_cons, NoDup_cons. cbn [Dict.get Dict.pop fst].
  intros [Hk0 Hd]. destruct (decide (k = k0)) as [->|Hk].
  - intros [= ->]. rewrite sum_of_cons.
    rewrite DictFacts.pop_absent by (by apply DictFacts.get_None_keys). ring.
  - intros Hg. rewrite !sum_of_cons, (IH Hd Hg). ring.
Qed.

Lemma sum_of_set key k tx d :
  NoDup (Dict.keys d) →
  sum_of field key (Dict.set k tx d) =
  (sum_of field key (Dict.pop k d)
   + (if decide (key = field tx) then _transaction_total tx else 0))%Qc.
Proof.
  unfold Dict.keys. induction d as [|[k0 tx0] d IH].
  - intros _. cbn [Dict.set Dict.pop]. rewrite sum_of_cons. ring.
  - rewrite fmap_cons, NoDup_cons. cbn [Dict.set Dict.pop fst].
    intros [Hk0 Hd]. destruct (decide (k = k0)) as [->|Hk].
    + rewrite sum_of_cons.
      rewrite DictFacts.pop_absent by (by apply DictFacts.get_None_keys). ring.
    + rewrite !sum_of_cons, (IH Hd). ring.
Qed.

Lemma sum_of_nonneg key d :
  (∀ k tx, (k, tx) ∈ d → (0 ≤ _transaction_total tx)%Qc) →
  (0 ≤ sum_of field key d)%Qc.
Proof.
  induction d as [|[k tx] d IH]; intros Hd; [done|].
  rewrite sum_of_cons. apply Qcplus_nonneg_nonneg.
  - case_decide; [|done]. apply (Hd k). left.
  - apply IH. intros k' tx' Hin. apply (Hd k'). by right.
Qed.
End derived.

(** ** Validation *)

Lemma validate_id_spec partial field raw :
  (∀ x, (validate_id partial field raw).1 = Some x → x ≠ ""%string)
  ∧ ((validate_id partial field raw).2 = [] → partial = false →
     is_Some (validate_id partial field raw).1).
Proof.
  unfold validate_id. destruct raw as [v|]; simpl.
  - destruct (String.eqb (strip v) "") eqn:He; simpl.
    + split; [done|]. done.
    + apply String.eqb_neq in He. split; [by intros x [= <-]|by eauto].
  - split; [done|]. by destruct partial.
Qed.

Lemma validate_quantity_spec partial raw :
  (∀ q, (validate_quantity partial raw).1 = Some q → 0 < q)
  ∧ ((validate_quantity partial raw).2 = [] → partial = false →
     is_Some (validate_quantity partial raw).1).
Proof.
  unfold validate_quantity. destruct raw as [[q|]|]; simpl.
  - case_decide; simpl; [done|]. split; [intros ? [= <-]; lia|by eauto].
  - done.
  - split; [done|]. by destruct partial.
Qed.

Lemma validate_price_spec partial raw :
  (∀ p, (validate_price partial raw).1 = Some p → (0 ≤ p)%Qc)
  ∧ ((validate_price partial raw).2 = [] → partial = false →
     is_Some (validate_price partial raw).1).
Proof.
  unfold validate_price. destruct raw as [[p|]|]; simpl.
  - case_decide as Hp; simpl; [done|].
    split; [intros ? [= <-]; by apply Qcnot_lt_le|by eauto].
  - done.
  - split; [done|]. by destruct partial.
Qed.

Lemma _validate_payload_accepted data partial now n :
  _validate_payload data partial now = (n, []) → accepted partial n.
Proof.
  unfold _validate_payload.
  pose proof (validate_id_spec partial "product_id" (pl_product_id data)) as [Hp1 Hp2].
  pose proof (validate_id_spec partial "customer_id" (pl_customer_id data)) as [Hc1 Hc2].
  pose proof (validate_quantity_spec partial (pl_quantity data)) as [Hq1 Hq2].
  pose proof (validate_price_spec partial (pl_price data)) as [Hr1 Hr2].
  destruct (validate_id partial "product_id" _) as [product_id e1].
  destruct (validate_id partial "customer_id" _) as [customer_id e2].
  destruct (validate_quantity partial _) as [quantity e3].
  destruct (validate_price partial _) as [price e4].
  destruct (validate_timestamp _ now) as [timestamp e5].
  intros [= <- He]. simpl in *.
  apply app_nil in He as [-> He]. apply app_nil in He as [-> He].
  apply app_nil in He as [-> He]. apply app_nil in He as [-> ->].
  split; simpl; auto.
Qed.

Lemma valid_total tx : valid tx → (0 ≤ _transaction_total tx)%Qc.
Proof.
  intros (Hq & Hp & _). unfold _transaction_total.
  apply Qcmult_nonneg_nonneg; [|done].
  rewrite <-Z2Qc_inj_0. apply (proj1 (Z2Qc_inj_le 0 (Tx.quantity tx))). lia.
Qed.

Section reindex.
Context (field : Tx.t → string).
Implicit Types (d : list (Z * Tx.t)) (k : Z) (tx : Tx.t).

Lemma unindex_index index d k tx :
  NoDup (Dict.keys d) → Dict.get k d = Some tx →
  index_rel index (λ key, ids_of field key d) →
  index_rel (index_discard (field tx) k index)
            (λ key, ids_of field key (Dict.pop k d)).
Proof.
  intros Hd Hg HI. eapply index_discard_rel; [done|]. intros key. simpl.
  rewrite ids_of_pop. case_decide as Hk; [done|].
  pose proof (ids_of_other field key k tx d Hd Hg Hk). set_solver.
Qed.

Lemma index_index index d k tx :
  NoDup (Dict.keys d) →
  index_rel index (λ key, ids_of field key (Dict.pop k d)) →
  index_rel (index_add (field tx) k index)
            (λ key, ids_of field key (Dict.set k tx d)).
Proof.
  intros Hd HI. eapply index_add_rel; [done|]. intros key. simpl.
  by apply ids_of_set.
Qed.

Lemma unindex_totals totals d k tx :
  NoDup (Dict.keys d) → Dict.get k d = Some tx →
  (∀ k' tx', (k', tx') ∈ d → valid tx') →
  totals_rel totals (λ key, sum_of field key d) →
  totals_rel (totals_sub (field tx) (_transaction_total tx) totals)
             (λ key, sum_of field key (Dict.pop k d)).
Proof.
  intros Hd Hg Hv HS. eapply totals_sub_rel; [done| |]; simpl.
  - intros key. by apply sum_of_pop.
  - apply sum_of_nonneg. intros k' tx' [Hin _]%DictFacts.elem_of_pop.
    eapply valid_total, Hv, Hin.
Qed.

Lemma index_totals totals d k tx :
  NoDup (Dict.keys d) →
  totals_rel totals (λ key, sum_of field key (Dict.pop k d)) →
  totals_rel (totals_add (field tx) (_transaction_total tx) totals)
             (λ key, sum_of field key (Dict.set k tx d)).
Proof.
  intros Hd HS. eapply totals_add_rel; [done|]. intros key. simpl.
  by apply sum_of_set.
Qed.
End reindex.

Lemma with_transactions_id s : with_transactions (transactions s) s = s.
Proof. by destruct s. Qed.

Lemma create_transaction_consistent s data now :
  consistent s → consistent (create_transaction s data now).1.
Proof.
  intros Hs. unfold create_transaction.
  destruct (_validate_payload data false now) as [n errors] eqn:Hv.
  destruct errors as [|e errors]; [|done].
  apply _validate_payload_accepted in Hv.
  destruct (acc_required _ _ Hv eq_refl)
    as ([product_id Hp] & [customer_id Hc] & [quantity Hq] & [price Hr]).
  rewrite Hp, Hc, Hq, Hr. simpl.
  set (tx := Tx.mk _ _ _ _ _ _ _ _).
  assert (valid tx) as Hvalid.
  { repeat split; simpl;
      [by apply (acc_quantity _ _ Hv)|by apply (acc_price _ _ Hv)
      |by apply (acc_product_id _ _ Hv)|by apply (acc_customer_id _ _ Hv)]. }
  destruct Hs as [Hnd Hb Hn Hid Hval Hpi Hci Hpt Hct Hso].
  assert (Dict.get (next_id s) (transactions s) = None) as Hfresh.
  { apply DictFacts.get_None_keys. intros Hin%Hb. lia. }
  split; simpl.
  - by apply DictFacts.NoDup_keys_set.
  - intros k. rewrite DictFacts.keys_set, Hfresh, elem_of_app, list_elem_of_singleton.
    intros [Hin%Hb| ->]; lia.
  - lia.
  - intros k tx' [[-> ->]|[_ Hin]]%DictFacts.elem_of_set; [done|eauto|done].
  - intros k tx' [[-> ->]|[_ Hin]]%DictFacts.elem_of_set; [done|eauto|done].
  - apply (index_index Tx.product_id _ _ _ tx); [done|].
    by rewrite DictFacts.pop_absent.
  - apply (index_index Tx.customer_id _ _ _ tx); [done|].
    by rewrite DictFacts.pop_absent.
  - apply (index_totals Tx.product_id _ _ _ tx); [done|].
    by rewrite DictFacts.pop_absent.
  - apply (index_totals Tx.customer_id _ _ _ tx); [done|].
    by rewrite DictFacts.pop_absent.
  - rewrite DictFacts.keys_set, Hfresh. apply StronglySorted_app.
    split_and!; [|done|repeat constructor].
    intros k k' Hin%Hb ->%list_elem_of_singleton. lia.
Qed.

Lemma update_transaction_consistent s tx_id data now :
  consistent s → consistent (update_transaction s tx_id data now).1.
Proof.
  intros Hs. unfold update_transaction.
  destruct (Dict.get tx_id (transactions s)) as [tx|] eqn:Hg; [|done].
  destruct (_validate_payload data true now) as [n errors] eqn:Hv.
  destruct errors as [|e errors]; [|done].
  apply _validate_payload_accepted in Hv. simpl.
  set (tx' := Tx.mk _ _ _ _ _ _ _ _).
  destruct Hs as [Hnd Hb Hn Hid Hval Hpi Hci Hpt Hct Hso].
  pose proof (DictFacts.get_Some_elem _ _ _ Hg) as Hin.
  assert (valid tx') as Hvalid.
  { destruct (Hval _ _ Hin) as (Hq & Hp & Hpid & Hcid).
    repeat split; simpl.
    - destruct (n_quantity n) eqn:E; [by apply (acc_quantity _ _ Hv)|done].
    - destruct (n_price n) eqn:E; [by apply (acc_price _ _ Hv)|done].
    - destruct (n_product_id n) eqn:E; [by apply (acc_product_id _ _ Hv)|done].
    - destruct (n_customer_id n) eqn:E; [by apply (acc_customer_id _ _ Hv)|done]. }
  split; simpl.
  - by apply DictFacts.NoDup_keys_set.
  - intros k. rewrite DictFacts.keys_set, Hg. apply Hb.
  - done.
  - intros k tx0 [[-> ->]|[_ Hin0]]%DictFacts.elem_of_set; [simpl; eauto|eauto|done].
  - intros k tx0 [[-> ->]|[_ Hin0]]%DictFacts.elem_of_set; [done|eauto|done].
  - apply (index_index Tx.product_id _ _ _ tx'); [done|].
    by apply unindex_index.
  - apply (index_index Tx.customer_id _ _ _ tx'); [done|].
    by apply unindex_index.
  - apply (index_totals Tx.product_id _ _ _ tx'); [done|].
    by apply unindex_totals.
  - apply (index_totals Tx.customer_id _ _ _ tx'); [done|].
    by apply unindex_totals.
  - by rewrite DictFacts.keys_set, Hg.
Qed.

Lemma delete_transaction_consistent s tx_id :
  consistent s → consistent (delete_transaction s tx_id).1.
Proof.
  intros Hs. unfold delete_transaction.
  destruct (Dict.get tx_id (transactions s)) as [tx|] eqn:Hg; simpl.
  - destruct Hs as [Hnd Hb Hn Hid Hval Hpi Hci Hpt Hct Hso]. split; simpl.
    + by apply DictFacts.NoDup_keys_pop.
    + intros k Hin. by apply Hb, (DictFacts.keys_pop_subseteq tx_id).
    + done.
    + intros k tx0 [Hin _]%DictFacts.elem_of_pop. eauto.
    + intros k tx0 [Hin _]%DictFacts.elem_of_pop. eauto.
    + by apply unindex_index.
    + by apply unindex_index.
    + by apply unindex_totals.
    + by apply unindex_totals.
    + by apply DictFacts.StronglySorted_keys_pop.
  - by rewrite DictFacts.pop_absent, with_transactions_id.
Qed.

Section serving.
Context `{SetIter}.

Lemma handle_consistent s now r :
  consistent s → consistent (handle s now r).1.
Proof.
  intros Hs. destruct r as [data|args|tx_id|tx_id data|tx_id| |limit]; simpl.
  - by apply create_transaction_consistent.
  - unfold list_transactions. by repeat case_match.
  - unfold get_transaction. by case_match.
  - by apply update_transaction_consistent.
  - by apply delete_transaction_consistent.
  - done.
  - unfold top_customers. by case_decide.
Qed.

Lemma serve_consistent reqs s :
  consistent s → consistent (serve s reqs).1.
Proof.
  revert s. induction reqs as [|[now r] reqs IH]; intros s Hs; [done|].
  simpl. pose proof (handle_consistent s now r Hs) as Hs'.
  destruct (handle s now r) as [s' resp]. specialize (IH s' Hs').
  by destruct (serve s' reqs).
Qed.

Lemma initial_consistent : consistent initial.
Proof.
  split; simpl; try done.
  - apply NoDup_nil_2.
  - intros k Hk. by apply elem_of_nil in Hk.
  - intros k tx Hk. by apply elem_of_nil in Hk.
  - intros k tx Hk. by apply elem_of_nil in Hk.
  - constructor.
Qed.

Lemma run_consistent reqs : consistent (run reqs).
Proof. apply serve_consistent, initial_consistent. Qed.
End serving.

(** ** Selection of the largest entries *)

Section selection.
Context {A : Type} (key : A → Qc).
Implicit Types (x : A) (l : list A).

Lemma insert_desc_Permutation x l : insert_desc key x l ≡ₚ x :: l.
Proof.
  induction l as [|y l IH]; simpl; [done|].
  case_decide; [|done]. by rewrite IH, Permutation_swap.
Qed.

Lemma sorted_desc_Permutation l : sorted_desc key l ≡ₚ l.
Proof.
  induction l as [|x l IH]; simpl; [done|].
  by rewrite insert_desc_Permutation, IH.
Qed.

Lemma insert_desc_sorted x l :
  StronglySorted (λ a b, (key b ≤ key a)%Qc) l →
  StronglySorted (λ a b, (key b ≤ key a)%Qc) (insert_desc key x l).
Proof.
  induction 1 as [|y l Hl IH Hy]; simpl.
  - repeat constructor.
  - case_decide as Hlt.
    + constructor; [done|].
      rewrite insert_desc_Permutation. constructor; [|done].
      by apply Qclt_le_weak.
    + apply Qcnot_lt_le in Hlt. constructor; [by constructor|].
      constructor; [done|]. eapply Forall_impl; [exact Hy|].
      intros z Hz. simpl in Hz. by trans (key y).
Qed.

Lemma sorted_desc_sorted l :
  StronglySorted (λ a b, (key b ≤ key a)%Qc) (sorted_desc key l).
Proof.
  induction l as [|x l IH]; simpl; [constructor|].
  by apply insert_desc_sorted.
Qed.
End selection.

(** ** Filtering through the indexes *)

Lemma truthy_true value :
  truthy value = true → ∃ v, value = Some v ∧ supplied value = Some v.
Proof.
  destruct value as [v|]; simpl; [|done]. intros Hv%negb_true_iff.
  apply String.eqb_neq in Hv. exists v. by rewrite decide_False.
Qed.

Lemma truthy_false value : truthy value = false → supplied value = None.
Proof.
  destruct value as [v|]; simpl; [|done]. intros Hv%negb_false_iff.
  apply String.eqb_eq in Hv. by rewrite decide_True.
Qed.

Lemma passes_spec start_date end_date min_total max_total tx :
  passes start_date end_date min_total max_total tx = true ↔
  when start_date (λ d, d ≤ Tx.timestamp tx)
  ∧ when end_date (λ d, Tx.timestamp tx ≤ d)
  ∧ when min_total (λ m, (m ≤ _transaction_total tx)%Qc)
  ∧ when max_total (λ m, (_transaction_total tx ≤ m)%Qc).
Proof.
  unfold passes. rewrite !andb_true_iff, !negb_true_iff.
  destruct start_date, end_date, min_total, max_total; simpl;
    rewrite ?bool_decide_eq_false, ?Qcle_ngt; intuition lia.
Qed.

Lemma index_rel_default index I key :
  index_rel index I → default ∅ (index !! key) = I key.
Proof. intros HI. rewrite HI. by case_decide. Qed.

Lemma filter_values (P : Tx.t → Prop) `{!∀ tx, Decision (P tx)}
    (d : list (Z * Tx.t)) :
  (filter (λ kv, P kv.2) d).*2 = filter P (Dict.values d).
Proof.
  unfold Dict.values. induction d as [|[k tx] d IH]; [done|].
  rewrite fmap_cons, !filter_cons. simpl.
  case_decide; [|done]. by rewrite fmap_cons, IH.
Qed.

Section listing.
Context `{SetIter}.

(** Looking up the ids of an index set yields the records it stands for, in
    the order the runtime enumerates the set. *)
Lemma lookup_candidates (P : Tx.t → Prop) `{!∀ tx, Decision (P tx)}
    (d : list (Z * Tx.t)) (X : gset Z) :
  NoDup (Dict.keys d) →
  (∀ k, k ∈ X ↔ ∃ tx, (k, tx) ∈ d ∧ P tx) →
  ∃ l, mapM (λ tx_id, Dict.get tx_id d) (set_iter X) = Some l
       ∧ l ≡ₚ filter P (Dict.values d).
Proof.
  intros Hd HX. set (dP := filter (λ kv : Z * Tx.t, P kv.2) d).
  assert (NoDup dP.*1) as HdP.
  { eapply sublist_NoDup; [exact Hd|]. apply fmap_sublist, sublist_filter. }
  assert (dP.*1 ≡ₚ set_iter X) as Hperm.
  { rewrite set_iter_perm. apply NoDup_Permutation; [done|apply NoDup_elements|].
    intros k. rewrite elem_of_elements, HX, list_elem_of_fmap. split.
    - intros ([k' tx] & -> & [HP Hin]%list_elem_of_filter). by exists tx.
    - intros (tx & Hin & HP). exists (k, tx). split; [done|].
      by apply list_elem_of_filter. }
  assert (Forall2 (λ k tx, Dict.get k d = Some tx) dP.*1 dP.*2) as Hall.
  { apply Forall2_fmap, Forall_Forall2_diag, Forall_forall.
    intros [k tx] [_ Hin]%list_elem_of_filter. by apply DictFacts.elem_get. }
  destruct (Permutation_Forall2 Hperm Hall) as (l & Hl & Hall').
  exists l. split; [by apply mapM_Some_2|].
  by rewrite <-Hl, <-filter_values.
Qed.

Lemma candidate_ids_spec s p c :
  consistent s →
  match candidate_ids s p c with
  | None => supplied p = None ∧ supplied c = None
  | Some X =>
      (is_Some (supplied p) ∨ is_Some (supplied c))
      ∧ ∀ k, k ∈ X ↔
             ∃ tx, (k, tx) ∈ transactions s
                   ∧ when (supplied p) (λ v, Tx.product_id tx = v)
                   ∧ when (supplied c) (λ v, Tx.customer_id tx = v)
  end.
Proof.
  intros [Hnd _ _ _ _ Hpi Hci _ _ _]. unfold candidate_ids.
  destruct (truthy p) eqn:Hp, (truthy c) eqn:Hc.
  - apply truthy_true in Hp as (p' & -> & ->).
    apply truthy_true in Hc as (c' & -> & ->). simpl.
    rewrite (index_rel_default _ _ p' Hpi), (index_rel_default _ _ c' Hci).
    split; [by eauto|].
    intros k. rewrite elem_of_intersection, !elem_of_ids_of. split.
    + intros [(tx & Hin & Hf) (tx' & Hin' & Hf')]. exists tx.
      apply (DictFacts.elem_get _ _ _ Hnd) in Hin'.
      rewrite (DictFacts.elem_get _ _ _ Hnd Hin) in Hin'. by simplify_eq.
    + intros (tx & Hin & Hf & Hf'). split; by exists tx.
  - apply truthy_true in Hp as (p' & -> & ->).
    apply truthy_false in Hc as ->. simpl.
    rewrite (index_rel_default _ _ p' Hpi). split; [by eauto|].
    intros k. rewrite elem_of_ids_of. naive_solver.
  - apply truthy_false in Hp as ->.
    apply truthy_true in Hc as (c' & -> & ->). simpl.
    rewrite (index_rel_default _ _ c' Hci). split; [by eauto|].
    intros k. rewrite elem_of_ids_of. naive_solver.
  - by split; apply truthy_false.
Qed.

Lemma matches_split q tx :
  matches q tx ↔
  (when (supplied (q_product_id q)) (λ p, Tx.product_id tx = p)
   ∧ when (supplied (q_customer_id q)) (λ c, Tx.customer_id tx = c))
  ∧ passes (q_start_date q) (q_end_date q) (q_min_total q) (q_max_total q) tx
    = true.
Proof. rewrite passes_spec. unfold matches. tauto. Qed.

Lemma listing_of_spec s q :
  consistent s →
  ∃ results,
    listing_of s q = Some results
    ∧ results ≡ₚ filtered s q
    ∧ (supplied (q_product_id q) = None → supplied (q_customer_id q) = None →
       results = filtered s q).
Proof.
  intros Hs. pose proof (candidate_ids_spec s (q_product_id q) (q_customer_id q) Hs)
    as Hcand.
  unfold listing_of, _apply_filters, filtered.
  destruct (candidate_ids s (q_product_id q) (q_customer_id q)) as [X|].
  - destruct Hcand as [Hsup Hcand].
    destruct (lookup_candidates _ _ X (c_nodup _ Hs) Hcand) as (l & -> & Hl).
    simpl. eexists. split; [done|]. split.
    + rewrite Hl, list_filter_filter.
      erewrite list_filter_iff; [done|]. intros tx. rewrite matches_split. tauto.
    + intros Hp Hc. rewrite Hp, Hc in Hsup. by destruct Hsup as [[? ?]|[? ?]].
  - destruct Hcand as [Hp Hc]. simpl. eexists. split; [done|].
    assert (filter
              (λ tx, passes (q_start_date q) (q_end_date q) (q_min_total q)
                       (q_max_total q) tx = true)
              (Dict.values (transactions s))
            = filter (matches q) (Dict.values (transactions s))) as ->; [|done].
    apply list_filter_iff. intros tx. rewrite matches_split, Hp, Hc. simpl. tauto.
Qed.
End listing.

(** ** Unindexing and indexing the same record *)




(** * The claims *)

Section claims.
Context `{SetIter}.








(** C3. An update or a delete of an id that is not in the store answers
    not-found and returns the store as it was; an update of a stored id whose
    partial payload fails validation answers with the list of violations and
    returns the store as it was.  The store is all of the state: records,
    both ledgers, both indexes and the id counter. *)
Theorem error_atomicity (s : store) (tx_id : Z) (data : payload) (now : Z) :
  (Dict.get tx_id (transactions s) = None →
   update_transaction s tx_id data now = (s, NotFound)
   ∧ delete_transaction s tx_id = (s, NotFound))
  ∧ (is_Some (Dict.get tx_id (transactions s)) →
     (_validate_payload data true now).2 ≠ [] →
     update_transaction s tx_id data now
     = (s, Errors (_validate_payload data true now).2)).
Proof.
  split.
  - intros Hg. unfold update_transaction, delete_transaction. rewrite Hg.
    by rewrite DictFacts.pop_absent, with_transactions_id.
  - intros [tx Hg] Herr. unfold update_transaction. rewrite Hg.
    destruct (_validate_payload data true now) as [n errors].
    by destruct errors.
Qed.
Lemma top_customers_selects s limit :
  0 < limit →
  ∃ top rest : list (string * Qc),
    top_customers s (Some limit)
    = (s, Customers (rounded <$> top) (Z.of_nat (length top)))
    ∧ customer_totals s ≡ₚ top ++ rest
    ∧ length top = (Z.to_nat limit `min` length (customer_totals s))%nat
    ∧ StronglySorted (λ x y, (y.2 ≤ x.2)%Qc) top
    ∧ ∀ x y, x ∈ top → y ∈ rest → (y.2 ≤ x.2)%Qc.
Proof.
  intros Hpos.
  exists (take (Z.to_nat limit) (sorted_desc snd (customer_totals s))),
         (drop (Z.to_nat limit) (sorted_desc snd (customer_totals s))).
  pose proof (sorted_desc_sorted snd (customer_totals s)) as Hsorted.
  rewrite <-(take_drop (Z.to_nat limit) (sorted_desc snd (customer_totals s)))
    in Hsorted.
  split_and!.
  - unfold top_customers, nlargest. simpl.
    rewrite decide_False by lia. by rewrite length_fmap.
  - by rewrite take_drop, sorted_desc_Permutation.
  - by rewrite length_take, (Permutation_length (sorted_desc_Permutation _ _)).
  - by apply StronglySorted_app_1_l in Hsorted.
  - intros x y Hx Hy.
    by apply (StronglySorted_app_1_elem_of _ _ _ x y Hsorted).
Qed.

(** C7, as amended. For every store and every integer limit N: if N <= 0 the
    top-customers query answers with the input error and returns the store
    as it was; if N > 0 it lists min(N, number of customer ledger entries)
    entries of the customer ledger, in descending order of total, none of
    the entries left out having a larger total than a listed one, each
    reported as the customer id with its total rounded to two decimals, and
    the count is the number listed. *)
Theorem top_customers_contract (s : store) (limit : Z) :
  top_n_contract rounded s limit.
Proof.
  split; [|apply top_customers_selects].
  intros Hle. unfold top_customers. simpl. by rewrite decide_True.
Qed.

(** C10. Without a limit parameter the top-customers query answers exactly
    as with limit 10, and lists at most 10 customers. *)
Theorem top_customers_default (s : store) :
  top_customers s None = top_customers s (Some 10)
  ∧ ∃ results,
      top_customers s None = (s, Customers results (Z.of_nat (length results)))
      ∧ (length results ≤ 10)%nat.
Proof.
  split; [done|].
  destruct (top_customers_selects s 10) as (top & rest & Heq & _ & Hlen & _);
    [lia|].
  exists (rounded <$> top). rewrite length_fmap. split; [done|]. lia.
Qed.

(** C9. A product_id filter that is the empty string is treated as no
    product_id filter, by [_apply_filters] and so by the listing; likewise a
    customer_id filter; with both empty the candidates are the whole record
    set, and no index is consulted. *)
Theorem empty_id_filter (s : store) (p c : option string)
    (start_date end_date : option Z) (min_total max_total : option Qc)
    (sd ed : option iso) (mn mx : option (option Qc)) (l o : option Z)
    (now : Z) :
  _apply_filters s (Some ""%string) c start_date end_date min_total max_total
  = _apply_filters s None c start_date end_date min_total max_total
  ∧ _apply_filters s p (Some ""%string) start_date end_date min_total max_total
    = _apply_filters s p None start_date end_date min_total max_total
  ∧ _apply_filters s (Some ""%string) (Some ""%string)
      start_date end_date min_total max_total
    = Some (filter (λ tx, passes start_date end_date min_total max_total tx = true)
                   (Dict.values (transactions s)))
  ∧ list_transactions s (ListArgs (Some ""%string) c sd ed mn mx l o) now
    = list_transactions s (ListArgs None c sd ed mn mx l o) now
  ∧ list_transactions s (ListArgs p (Some ""%string) sd ed mn mx l o) now
    = list_transactions s (ListArgs p None sd ed mn mx l o) now.
Proof.
  assert (∀ p', candidate_ids s p' (Some ""%string) = candidate_ids s p' None)
    as Hc by done.
  assert (∀ c', candidate_ids s (Some ""%string) c' = candidate_ids s None c')
    as Hp by done.
  split_and!.
  - unfold _apply_filters. by rewrite Hp.
  - unfold _apply_filters. by rewrite Hc.
  - done.
  - unfold list_transactions, _apply_filters. simpl. by rewrite Hp.
  - unfold list_transactions, _apply_filters. simpl. by rewrite Hc.
Qed.
Lemma slice_page {A} (results : list A) (limit offset : option Z) :
  let offset' := default 0 offset in
  let offset' := if decide (offset' < 0) then 0 else offset' in
  let limit' :=
    match limit with
    | Some l => if decide (l < 0) then None else Some l
    | None => None
    end in
  slice results offset' ((λ l, offset' + l) <$> limit')
  = page limit offset results.
Proof.
  simpl. unfold slice, page.
  assert ((if decide (default 0 offset < 0) then 0 else default 0 offset)
          = 0 `max` default 0 offset) as -> by (case_decide; lia).
  destruct limit as [l|]; [|done]. case_decide; [done|]. simpl.
  by rewrite Z.add_simpl_l.
Qed.


End claims.


(** The two error paths of C3, run: an update and a delete on the empty
    store, and an update with an unreadable quantity on a stored record. *)
Lemma error_atomicity_witness :
  let s1 := run (H := cpython_table) [sale "P1" "C1" 2 (Qc_of_Z 5)] in
  let bad := Payload None None None None (Some None) None None in
  (update_transaction initial 1 empty_payload 0 = (initial, NotFound)
   ∧ delete_transaction initial 1 = (initial, NotFound))
  ∧ update_transaction s1 1 bad 0
    = (s1, Errors ["quantity must be a positive integer"%string]).
Proof.
  intros s1 bad. split.
  - apply (error_atomicity initial 1 empty_payload 0). reflexivity.
  - apply (proj2 (error_atomicity s1 1 bad 0)).
    + exists (Tx.mk 1 "P1" None "C1" None 2 (Qc_of_Z 5) 0). reflexivity.
    + discriminate.
Defined.

(** C7, as stated, fails: a customer whose ledger total is 1/1000 is
    reported with total 0, which is not its total. *)
Lemma top_customers_exact_fails :
  ¬ top_n_contract id
      (run (H := cpython_table) [sale "P1" "C1" 1 (Q2Qc (1 # 1000))]) 1.
Proof.
  intros [_ Hc]. destruct Hc as (top & rest & Heq & Hperm & _); [lia|].
  assert (top_customers
            (run (H := cpython_table) [sale "P1" "C1" 1 (Q2Qc (1 # 1000))])
            (Some 1)
          = (run (H := cpython_table) [sale "P1" "C1" 1 (Q2Qc (1 # 1000))],
             Customers [("C1"%string, round2 (Q2Qc (1 # 1000)))] 1)) as Hrun
    by reflexivity.
  rewrite Hrun in Heq. injection Heq as Htop _.
  rewrite list_fmap_id in Htop. subst top.
  assert (customer_totals
            (run (H := cpython_table) [sale "P1" "C1" 1 (Q2Qc (1 # 1000))])
          = [("C1"%string, (Qc_of_Z 1 * Q2Qc (1 # 1000))%Qc)]) as Hled.
  { unfold run. simpl. unfold totals_add. simpl. by do 2 f_equal. }
  rewrite Hled in Hperm.
  assert (("C1"%string, round2 (Q2Qc (1 # 1000)))
          ∈ [("C1"%string, (Qc_of_Z 1 * Q2Qc (1 # 1000))%Qc)]) as Hin.
  { rewrite Hperm. left. }
  apply list_elem_of_singleton in Hin.
  apply (f_equal (λ item, this item.2)) in Hin. by vm_compute in Hin.
Qed.

(** C7 on the second scenario of the test suite: two sales to one customer,
    limit 0 refused and limit 1 answered. *)
Lemma top_customers_contract_witness :
  let s := run (H := cpython_table)
             [sale "P1" "C1" 2 (Qc_of_Z 10); sale "P2" "C1" 1 (Qc_of_Z 25)] in
  top_customers s (Some 0) = (s, Errors ["limit must be positive"%string])
  ∧ ∃ top rest : list (string * Qc),
      top_customers s (Some 1)
      = (s, Customers (rounded <$> top) (Z.of_nat (length top)))
      ∧ customer_totals s ≡ₚ top ++ rest
      ∧ length top = (Z.to_nat 1 `min` length (customer_totals s))%nat
      ∧ StronglySorted (λ x y, (y.2 ≤ x.2)%Qc) top
      ∧ ∀ x y, x ∈ top → y ∈ rest → (y.2 ≤ x.2)%Qc.
Proof.
  intros s. split.
  - apply (top_customers_contract s 0). lia.
  - apply (top_customers_contract s 1). lia.
Defined.





(** * Further properties *)

(** ** The validator *)

Lemma validate_id_iff partial field raw :
  ((validate_id partial field raw).2 = []
   ↔ field_ok partial raw (λ v, strip v ≠ ""%string))
  ∧ ((validate_id partial field raw).2 = [] →
     (validate_id partial field raw).1 = strip <$> raw).
Proof.
  unfold validate_id, field_ok. destruct raw as [v|]; simpl.
  - destruct (String.eqb (strip v) "") eqn:He; simpl.
    + apply String.eqb_eq in He. by split; [split|].
    + apply String.eqb_neq in He. by split; [split|].
  - by destruct partial.
Qed.

Lemma validate_quantity_iff partial raw :
  ((validate_quantity partial raw).2 = []
   ↔ field_ok partial raw (λ v, ∃ q, v = Some q ∧ 0 < q))
  ∧ ((validate_quantity partial raw).2 = [] →
     (validate_quantity partial raw).1 = mjoin raw).
Proof.
  unfold validate_quantity, field_ok. destruct raw as [[q|]|]; simpl.
  - case_decide; simpl; split; try done.
    + split; [done|]. intros (q' & [= <-] & Hq). lia.
    + split; [|done]. intros _. exists q. split; [done|lia].
  - split; [|done]. split; [done|]. by intros (q & ? & _).
  - by destruct partial.
Qed.

Lemma validate_price_iff partial raw :
  ((validate_price partial raw).2 = []
   ↔ field_ok partial raw (λ v, ∃ p, v = Some p ∧ (0 ≤ p)%Qc))
  ∧ ((validate_price partial raw).2 = [] →
     (validate_price partial raw).1 = mjoin raw).
Proof.
  unfold validate_price, field_ok. destruct raw as [[p|]|]; simpl.
  - case_decide as Hp; simpl; split; try done.
    + split; [done|]. intros (p' & [= <-] & Hp'). by apply Qcle_ngt in Hp'.
    + split; [|done]. intros _. exists p. split; [done|].
      by apply Qcnot_lt_le.
  - split; [|done]. split; [done|]. by intros (q & ? & _).
  - by destruct partial.
Qed.

Lemma validate_timestamp_iff raw now :
  ((validate_timestamp raw now).2 = [] ↔ when raw (λ v, v ≠ IsoInvalid))
  ∧ (validate_timestamp raw now).1 = raw ≫= λ v, _parse_timestamp (Some v) now.
Proof.
  unfold validate_timestamp. destruct raw as [[|t|]|]; simpl; by split; [split|].
Qed.

Lemma _validate_payload_iff data partial now :
  ((_validate_payload data partial now).2 = [] ↔ well_formed partial data)
  ∧ ((_validate_payload data partial now).2 = [] →
     (_validate_payload data partial now).1 = normal_form data now).
Proof.
  unfold _validate_payload, well_formed, normal_form.
  pose proof (validate_id_iff partial "product_id" (pl_product_id data)) as [Hp1 Hp2].
  pose proof (validate_id_iff partial "customer_id" (pl_customer_id data)) as [Hc1 Hc2].
  pose proof (validate_quantity_iff partial (pl_quantity data)) as [Hq1 Hq2].
  pose proof (validate_price_iff partial (pl_price data)) as [Hr1 Hr2].
  pose proof (validate_timestamp_iff (pl_timestamp data) now) as [Ht1 Ht2].
  destruct (validate_id partial "product_id" _) as [product_id e1].
  destruct (validate_id partial "customer_id" _) as [customer_id e2].
  destruct (validate_quantity partial _) as [quantity e3].
  destruct (validate_price partial _) as [price e4].
  destruct (validate_timestamp _ now) as [timestamp e5].
  simpl in *. rewrite !app_nil, Hp1, Hc1, Hq1, Hr1, Ht1. split; [done|].
  intros (H1 & H2 & H3 & H4 & H5).
  rewrite Hp2, Hc2, Hq2, Hr2, Ht2 by tauto. done.
Qed.


(** ** Create, fetch, delete *)



(** X4. A delete that succeeds answers with the record that was stored under
    the id; afterwards the id is gone for good: fetching, updating or
    deleting it again answers not-found and changes nothing, while every
    other id and the counter read as before. *)
Theorem delete_then_get (s s' : store) (tx_id : Z) (v : view)
    (data : payload) (now : Z) :
  delete_transaction s tx_id = (s', Deleted v) →
  Dict.get tx_id (transactions s) = Some (v_tx v)
  ∧ get_transaction s' tx_id = (s', NotFound)
  ∧ update_transaction s' tx_id data now = (s', NotFound)
  ∧ delete_transaction s' tx_id = (s', NotFound)
  ∧ next_id s' = next_id s
  ∧ ∀ k, k ≠ tx_id →
         Dict.get k (transactions s') = Dict.get k (transactions s).
Proof.
  unfold delete_transaction.
  destruct (Dict.get tx_id (transactions s)) as [tx|] eqn:Hg; [|done].
  intros [= <- <-]. simpl.
  assert (Dict.get tx_id (Dict.pop tx_id (transactions s)) = None) as Hgone
    by apply DictFacts.get_pop_eq.
  unfold get_transaction, update_transaction. simpl. rewrite Hgone.
  split_and!; try done.
  - by rewrite DictFacts.pop_absent.
  - intros k Hk. by rewrite DictFacts.get_pop_ne.
Qed.


(** ** Analytics *)

(** X6. The per-product report returns the store as it was and lists every
    entry of the product ledger once, as the product id with its total
    rounded to two decimals, in descending order of the rounded total; the
    count is the number of ledger entries. *)
Theorem total_sales_contract (s : store) :
  ∃ rows,
    total_sales_per_product s = (s, Products rows (Z.of_nat (length rows)))
    ∧ rows ≡ₚ rounded <$> product_totals s
    ∧ length rows = length (product_totals s)
    ∧ StronglySorted (λ x y, (y.2 ≤ x.2)%Qc) rows.
Proof.
  exists (sorted_desc snd (rounded <$> product_totals s)). split_and!.
  - done.
  - apply sorted_desc_Permutation.
  - by rewrite (Permutation_length (sorted_desc_Permutation _ _)), length_fmap.
  - apply sorted_desc_sorted.
Qed.

(** ** No lookup of a missing key *)

Lemma handle_no_server_error `{SetIter} s now r :
  consistent s → (handle s now r).2 ≠ ServerError.
Proof.
  intros Hs. destruct r as [data|args|tx_id|tx_id data|tx_id| |limit]; simpl.
  - unfold create_transaction.
    destruct (_validate_payload data false now) as [n errors] eqn:Hv.
    destruct errors as [|e errors]; [|done].
    apply _validate_payload_accepted in Hv.
    destruct (acc_required _ _ Hv eq_refl)
      as ([product_id Hp] & [customer_id Hc] & [quantity Hq] & [price Hr]).
    by rewrite Hp, Hc, Hq, Hr.
  - unfold list_transactions.
    destruct (date_arg (a_start_date args) now) as [start_dt|],
      (date_arg (a_end_date args) now) as [end_dt|]; try done.
    destruct (total_arg (a_min_total args)) as [min_total_val|],
      (total_arg (a_max_total args)) as [max_total_val|]; try done.
    destruct (listing_of_spec s
                (Query (a_product_id args) (a_customer_id args) start_dt end_dt
                       min_total_val max_total_val None None) Hs)
      as (results & Hres & _).
    unfold listing_of in Hres. simpl in Hres. by rewrite Hres.
  - unfold get_transaction. by destruct (Dict.get _ _).
  - unfold update_transaction. destruct (Dict.get _ _); [|done].
    by destruct (_validate_payload _ _ _) as [n [|e errors]].
  - unfold delete_transaction. by destruct (Dict.get _ _).
  - done.
  - unfold top_customers. by case_decide.
Qed.

Lemma serve_no_server_error `{SetIter} reqs s :
  consistent s → ServerError ∉ (serve s reqs).2.
Proof.
  revert s. induction reqs as [|[now r] reqs IH]; intros s Hs.
  { apply not_elem_of_nil. }
  simpl. pose proof (handle_no_server_error s now r Hs) as Hr.
  pose proof (handle_consistent s now r Hs) as Hs'.
  destruct (handle s now r) as [s' resp]. specialize (IH s' Hs').
  destruct (serve s' reqs) as [s'' resps]. simpl in *.
  apply not_elem_of_cons. split; [by intros <-|done].
Qed.

(** X7. No request of any sequence is answered with the server error of a
    missing key: a create that passed validation finds its four required
    fields, and the listing finds every id of an index set among the
    records. *)
Theorem no_server_error `{SetIter} (reqs : list (Z * request)) :
  ServerError ∉ (serve initial reqs).2.
Proof. apply serve_no_server_error, initial_consistent. Qed.

(** ** The derived state *)







(** ** The ledgers add up *)

Lemma ledger_sum_set key v (totals : list (string * Qc)) :
  ledger_sum (Dict.set key v totals)
  = (ledger_sum totals - default 0 (Dict.get key totals) + v)%Qc.
Proof.
  unfold ledger_sum, Dict.values.
  induction totals as [|[k0 v0] totals IH]; cbn [Dict.set Dict.get].
  - simpl. ring.
  - case_decide; rewrite !fmap_cons; cbn [foldr snd default from_option id].
    + ring.
    + rewrite IH. ring.
Qed.

Lemma ledger_sum_pop key (totals : list (string * Qc)) :
  NoDup (Dict.keys totals) →
  ledger_sum (Dict.pop key totals)
  = (ledger_sum totals - default 0 (Dict.get key totals))%Qc.
Proof.
  unfold ledger_sum, Dict.values, Dict.keys.
  induction totals as [|[k0 v0] totals IH]; cbn [Dict.pop Dict.get].
  - intros _. simpl. ring.
  - rewrite fmap_cons, NoDup_cons. cbn [fst]. intros [Hk0 Hd].
    destruct (decide (key = k0)) as [->|Hne];
      rewrite ?fmap_cons; cbn [foldr snd default from_option id].
    + rewrite DictFacts.pop_absent by (by apply DictFacts.get_None_keys).
      ring.
    + rewrite (IH Hd). ring.
Qed.

Lemma revenue_sum_of (d : list (Z * Tx.t)) :
  revenue d = sum_of (λ _, ""%string) "" d.
Proof.
  unfold revenue, sum_of. f_equal. f_equal.
  induction (Dict.values d) as [|tx l IH]; [done|].
  by rewrite filter_cons_True, <-IH.
Qed.

Lemma balanced_add key total totals R :
  NoDup (Dict.keys totals) → ledger_sum totals = R →
  NoDup (Dict.keys (totals_add key total totals))
  ∧ ledger_sum (totals_add key total totals) = (R + total)%Qc.
Proof.
  intros Hnd <-. unfold totals_add. split.
  - by apply DictFacts.NoDup_keys_set.
  - rewrite ledger_sum_set. ring.
Qed.

Lemma balanced_sub key total totals R :
  NoDup (Dict.keys totals) → ledger_sum totals = R →
  (0 ≤ default 0 (Dict.get key totals) - total)%Qc →
  NoDup (Dict.keys (totals_sub key total totals))
  ∧ ledger_sum (totals_sub key total totals) = (R - total)%Qc.
Proof.
  intros Hnd <- Hpos. unfold totals_sub.
  pose proof (DictFacts.NoDup_keys_set key
                (default 0 (Dict.get key totals) - total)%Qc totals Hnd) as Hnd'.
  case_decide as Hle.
  - split; [by apply DictFacts.NoDup_keys_pop|].
    rewrite ledger_sum_pop, ledger_sum_set, DictFacts.get_set_eq by done.
    simpl. assert (default 0%Qc (Dict.get key totals) = total) as ->.
    { apply Qcle_antisym; [|by apply Qcle_minus_iff].
      apply (Qcplus_le_mono_r _ _ (- total)%Qc).
      by replace (total + - total)%Qc with 0%Qc by ring. }
    ring.
  - split; [done|]. rewrite ledger_sum_set. ring.
Qed.

Section balance.
Context (field : Tx.t → string).

Lemma unindex_balanced totals d tx_id tx :
  NoDup (Dict.keys d) → Dict.get tx_id d = Some tx →
  (∀ k' tx', (k', tx') ∈ d → valid tx') →
  totals_rel totals (λ key, sum_of field key d) →
  balanced totals d →
  balanced (totals_sub (field tx) (_transaction_total tx) totals)
           (Dict.pop tx_id d).
Proof.
  intros Hd Hg Hv HS [Hnd Hsum].
  destruct (balanced_sub (field tx) (_transaction_total tx) totals _ Hnd Hsum)
    as [Hnd' Hsum'].
  - rewrite HS. simpl.
    pose proof (sum_of_pop field (field tx) tx_id tx d Hd Hg) as Hpop.
    rewrite decide_True in Hpop by done. rewrite <-Hpop.
    apply sum_of_nonneg. intros k' tx' [Hin _]%DictFacts.elem_of_pop.
    eapply valid_total, Hv, Hin.
  - split; [done|]. rewrite Hsum', !revenue_sum_of.
    by rewrite (sum_of_pop _ _ _ _ _ Hd Hg), decide_True.
Qed.

Lemma index_balanced totals d tx_id tx :
  NoDup (Dict.keys d) →
  balanced totals (Dict.pop tx_id d) →
  balanced (totals_add (field tx) (_transaction_total tx) totals)
           (Dict.set tx_id tx d).
Proof.
  intros Hd [Hnd Hsum].
  destruct (balanced_add (field tx) (_transaction_total tx) totals _ Hnd Hsum)
    as [Hnd' Hsum'].
  split; [done|]. rewrite Hsum', !revenue_sum_of.
  by rewrite (sum_of_set _ _ _ _ _ Hd), decide_True.
Qed.
End balance.

Lemma handle_balanced `{SetIter} s now r :
  consistent s →
  balanced (product_totals s) (transactions s)
  ∧ balanced (customer_totals s) (transactions s) →
  balanced (product_totals (handle s now r).1) (transactions (handle s now r).1)
  ∧ balanced (customer_totals (handle s now r).1)
             (transactions (handle s now r).1).
Proof.
  intros [Hnd Hb _ _ Hval _ _ Hpt Hct _] [Hp Hc].
  destruct r as [data|args|tx_id|tx_id data|tx_id| |limit]; simpl.
  - unfold create_transaction.
    destruct (_validate_payload data false now) as [n errors].
    destruct errors as [|e errors]; [|done].
    assert (Dict.get (next_id s) (transactions s) = None) as Hfresh.
    { apply DictFacts.get_None_keys. intros Hin%Hb. lia. }
    destruct (n_product_id n), (n_customer_id n), (n_quantity n), (n_price n);
      try done.
    simpl. set (tx := Tx.mk _ _ _ _ _ _ _ _).
    split.
    + apply (index_balanced Tx.product_id _ _ _ tx); [done|].
      by rewrite DictFacts.pop_absent.
    + apply (index_balanced Tx.customer_id _ _ _ tx); [done|].
      by rewrite DictFacts.pop_absent.
  - unfold list_transactions.
    destruct (date_arg (a_start_date args) now),
      (date_arg (a_end_date args) now); try done.
    destruct (total_arg (a_min_total args)),
      (total_arg (a_max_total args)); try done.
    by destruct (_apply_filters _ _ _ _ _ _ _).
  - unfold get_transaction. by destruct (Dict.get _ _).
  - unfold update_transaction.
    destruct (Dict.get tx_id (transactions s)) as [tx|] eqn:Hg; [|done].
    destruct (_validate_payload data true now) as [n [|e errors]]; [|done].
    simpl. set (tx' := Tx.mk _ _ _ _ _ _ _ _). split.
    + apply (index_balanced Tx.product_id _ _ _ tx'); [done|].
      by apply unindex_balanced.
    + apply (index_balanced Tx.customer_id _ _ _ tx'); [done|].
      by apply unindex_balanced.
  - unfold delete_transaction.
    destruct (Dict.get tx_id (transactions s)) as [tx|] eqn:Hg; simpl.
    + split; by apply unindex_balanced.
    + by rewrite DictFacts.pop_absent.
  - done.
  - unfold top_customers. by case_decide.
Qed.

Lemma serve_balanced `{SetIter} reqs s :
  consistent s →
  balanced (product_totals s) (transactions s)
  ∧ balanced (customer_totals s) (transactions s) →
  balanced (product_totals (serve s reqs).1) (transactions (serve s reqs).1)
  ∧ balanced (customer_totals (serve s reqs).1)
             (transactions (serve s reqs).1).
Proof.
  revert s. induction reqs as [|[now r] reqs IH]; intros s Hs Hb; [done|].
  simpl. pose proof (handle_consistent s now r Hs) as Hs'.
  pose proof (handle_balanced s now r Hs Hb) as Hb'.
  destruct (handle s now r) as [s' resp]. specialize (IH s' Hs' Hb').
  by destruct (serve s' reqs).
Qed.

(** X10. After any sequence of requests each ledger has one entry per key,
    and the entries of the product ledger and those of the customer ledger
    add up to the same amount: the sum of [quantity * price] over all live
    records. *)
Theorem ledgers_add_up `{SetIter} (reqs : list (Z * request)) :
  ledger_sum (product_totals (run reqs)) = revenue (transactions (run reqs))
  ∧ ledger_sum (customer_totals (run reqs)) = revenue (transactions (run reqs))
  ∧ NoDup (Dict.keys (product_totals (run reqs)))
  ∧ NoDup (Dict.keys (customer_totals (run reqs))).
Proof.
  destruct (serve_balanced reqs initial initial_consistent)
    as [[Hn1 Hs1] [Hn2 Hs2]].
  { by split; split; [apply NoDup_nil_2| |apply NoDup_nil_2|]. }
  by split_and!.
Qed.

(** ** Update *)


(** ** Create followed by delete *)




(** ** Pages and malformed filters *)

Lemma list_transactions_query `{SetIter} s q now :
  consistent s →
  ∃ results,
    listing_of s q = Some results
    ∧ list_transactions s (args_of q) now
      = (s, Listing (Z.of_nat (length results))
                    (_serialize_transaction
                       <$> page (q_limit q) (q_offset q) results)).
Proof.
  intros Hs. destruct (listing_of_spec s q Hs) as (results & Hres & _).
  exists results. split; [done|].
  unfold list_transactions, args_of. simpl.
  assert (∀ d, date_arg (IsoValid <$> d) now = Some d) as Hdate
    by (by intros [d|]).
  assert (∀ m, total_arg (Some <$> m) = Some m) as Htotal by (by intros [m|]).
  rewrite !Hdate, !Htotal. unfold listing_of in Hres. rewrite Hres.
  by rewrite slice_page.
Qed.

(** X13. After any sequence of requests and for any filters, consecutive
    pages tile the result: the page of [n] records from offset [o], followed
    by everything from offset [o + n], is everything from offset [o]; the
    three answers carry the same count, and the first page has at most [n]
    records. *)
Theorem pages_tile `{SetIter} (reqs : list (Z * request)) (q : query)
    (now o n : Z) :
  0 ≤ o → 0 ≤ n →
  ∃ count page1 page2 whole,
    (list_transactions (run reqs) (args_of (paged q (Some n) (Some o))) now).2
    = Listing count page1
    ∧ (list_transactions (run reqs)
         (args_of (paged q None (Some (o + n)))) now).2
      = Listing count page2
    ∧ (list_transactions (run reqs) (args_of (paged q None (Some o))) now).2
      = Listing count whole
    ∧ whole = page1 ++ page2
    ∧ (length page1 ≤ Z.to_nat n)%nat.
Proof.
  intros Ho Hn. pose proof (run_consistent reqs) as Hs.
  destruct (list_transactions_query (run reqs) (paged q (Some n) (Some o)) now Hs)
    as (r1 & Hr1 & ->).
  destruct (list_transactions_query (run reqs)
              (paged q None (Some (o + n))) now Hs) as (r2 & Hr2 & ->).
  destruct (list_transactions_query (run reqs) (paged q None (Some o)) now Hs)
    as (r3 & Hr3 & ->).
  assert (r2 = r1) as -> by (unfold listing_of in *; simpl in *; congruence).
  assert (r3 = r1) as -> by (unfold listing_of in *; simpl in *; congruence).
  do 4 eexists. split_and!; try done.
  - unfold page. simpl. rewrite decide_False by lia.
    rewrite <-fmap_app. f_equal.
    rewrite !Z.max_r by lia. rewrite Z2Nat.inj_add by lia.
    by rewrite <-drop_drop, take_drop.
  - rewrite length_fmap. unfold page. simpl. rewrite decide_False by lia.
    rewrite length_take. lia.
Qed.

(** X14. Malformed filters are refused before any lookup and leave the
    store as it was: an unreadable start or end date answers with the
    timestamp violation, also when a total is unreadable as well; with
    readable dates an unreadable minimum or maximum total answers with the
    number violation. *)
Theorem listing_refused `{SetIter} (s : store) (args : list_args) (now : Z) :
  (a_start_date args = Some IsoInvalid ∨ a_end_date args = Some IsoInvalid →
   list_transactions s args now
   = (s, Errors ["timestamp must be ISO 8601"%string]))
  ∧ (a_start_date args ≠ Some IsoInvalid →
     a_end_date args ≠ Some IsoInvalid →
     a_min_total args = Some None ∨ a_max_total args = Some None →
     list_transactions s args now
     = (s, Errors ["min_total/max_total must be numbers"%string])).
Proof.
  unfold list_transactions. split.
  - intros [Hd|Hd]; rewrite Hd; simpl; [done|].
    by destruct (date_arg (a_start_date args) now).
  - intros Hs He Hm.
    destruct (a_start_date args) as [[| |]|], (a_end_date args) as [[| |]|];
      try done; simpl;
      destruct Hm as [Hm|Hm]; rewrite Hm; simpl; try done;
      by destruct (total_arg (a_min_total args)).
Qed.

(** ** The reported total *)

Lemma round_half_even_integer (n : Z) : round_half_even (Qc_of_Z n) = n.
Proof.
  unfold round_half_even, Qc_of_Z. simpl.
  by rewrite Z.div_1_r, Z.mod_1_r.
Qed.

Lemma round2_hundredths (n : Z) :
  round2 (Qc_of_Z n / Qc_of_Z 100) = (Qc_of_Z n / Qc_of_Z 100)%Qc.
Proof.
  unfold round2.
  replace (Qc_of_Z n / Qc_of_Z 100 * Qc_of_Z 100)%Qc with (Qc_of_Z n).
  - by rewrite round_half_even_integer.
  - field. by intros Hz%(f_equal this).
Qed.

Lemma round_half_even_near (x : Qc) :
  (Qc_of_Z (2 * round_half_even x - 1) ≤ 2 * x)%Qc
  ∧ (2 * x ≤ Qc_of_Z (2 * round_half_even x + 1))%Qc.
Proof.
  destruct x as [[n d] Hc]. unfold round_half_even. simpl.
  pose proof (Z.div_mod n (Z.pos d) ltac:(lia)) as Hdm.
  pose proof (Z.mod_pos_bound n (Z.pos d) ltac:(lia)) as Hm.
  set (q := n `div` Z.pos d) in *. set (m := n `mod` Z.pos d) in *.
  unfold Qcle. simpl. rewrite !Qred_correct. unfold Qle. simpl.
  rewrite !Pos.mul_1_l.
  repeat case_decide; destruct (Z.even q); nia.
Qed.

Lemma round2_near (x : Qc) :
  (x - Q2Qc (1 # 200) ≤ round2 x)%Qc ∧ (round2 x ≤ x + Q2Qc (1 # 200))%Qc.
Proof.
  destruct (round_half_even_near (x * Qc_of_Z 100)) as [H1 H2].
  unfold round2. set (r := round_half_even (x * Qc_of_Z 100)) in *.
  revert H1 H2. unfold Qcle, Z.sub. simpl. rewrite !Qred_correct.
  rewrite !inject_Z_plus, !inject_Z_mult.
  change (inject_Z 2) with 2%Q. change (inject_Z 1) with 1%Q.
  change (inject_Z (- (1))) with (-1 # 1)%Q.
  change (inject_Z 100) with (100 # 1)%Q.
  change (/ (100 # 1))%Q with (1 # 100)%Q.
  clearbody r. generalize (inject_Z r) (this x). intros a b H1 H2.
  split; lra.
Qed.

(** X15. A serialized transaction carries the stored fields unchanged and a
    total within half a hundredth of [quantity * price]; when the price is
    a whole number of hundredths the total is [quantity * price] itself. *)
Theorem serialized_total (tx : Tx.t) :
  v_tx (_serialize_transaction tx) = tx
  ∧ (_transaction_total tx - Q2Qc (1 # 200)
     ≤ v_total (_serialize_transaction tx))%Qc
  ∧ (v_total (_serialize_transaction tx)
     ≤ _transaction_total tx + Q2Qc (1 # 200))%Qc
  ∧ ∀ cents : Z,
      Tx.price tx = (Qc_of_Z cents / Qc_of_Z 100)%Qc →
      v_total (_serialize_transaction tx) = _transaction_total tx.
Proof.
  unfold _serialize_transaction. simpl.
  destruct (round2_near (_transaction_total tx)) as [H1 H2].
  split_and!; try done.
  intros cents Hp. unfold _transaction_total. rewrite Hp.
  replace (Qc_of_Z (Tx.quantity tx) * (Qc_of_Z cents / Qc_of_Z 100))%Qc
    with (Qc_of_Z (Tx.quantity tx * cents) / Qc_of_Z 100)%Qc.
  - apply round2_hundredths.
  - rewrite Z2Qc_inj_mul. field. by intros Hz%(f_equal this).
Qed.

(** ** Stored strings are stripped *)

Lemma lstrip_idemp (l : list ascii) : lstrip (lstrip l) = lstrip l.
Proof.
  induction l as [|c l IH]; [done|]. simpl.
  destruct (isspace c) eqn:Hc; [done|]. simpl. by rewrite Hc.
Qed.

Lemma lstrip_snoc (l : list ascii) (c : ascii) :
  isspace c = false → ∃ l', lstrip (l ++ [c]) = l' ++ [c].
Proof.
  intros Hc. induction l as [|x l IH]; simpl.
  - rewrite Hc. by exists [].
  - destruct (isspace x); [done|]. by exists (x :: l).
Qed.

Lemma lstrip_rstrip (l : list ascii) :
  lstrip l = l → lstrip (rev (lstrip (rev l))) = rev (lstrip (rev l)).
Proof.
  destruct l as [|c l]; [done|]. simpl.
  destruct (isspace c) eqn:Hc.
  - intros Heq. exfalso.
    assert (length (lstrip l) ≤ length l)%nat as Hlen.
    { clear. induction l as [|x l IH]; simpl; [done|].
      destruct (isspace x); simpl; lia. }
    rewrite Heq in Hlen. simpl in Hlen. lia.
  - intros _. destruct (lstrip_snoc (rev l) c Hc) as [l' ->].
    rewrite rev_app_distr. simpl. by rewrite Hc.
Qed.

Lemma strip_strip (s : string) : strip (strip s) = strip s.
Proof.
  unfold strip. rewrite list_ascii_of_string_of_list_ascii. f_equal.
  set (l := lstrip (list_ascii_of_string s)).
  assert (lstrip l = l) as Hl by apply lstrip_idemp.
  rewrite (lstrip_rstrip l Hl), rev_involutive, lstrip_idemp. done.
Qed.

Lemma validate_name_trimmed raw name :
  default None (validate_name raw) = Some name →
  strip name = name ∧ name ≠ ""%string.
Proof.
  unfold validate_name. destruct raw as [v|]; simpl; [|done].
  destruct (String.eqb (strip v) "") eqn:He; [done|].
  apply String.eqb_neq in He. intros [= <-]. by rewrite strip_strip.
Qed.

Lemma updated_trimmed tx data now :
  trimmed tx → trimmed (updated tx (normal_form data now)).
Proof.
  intros (Hp & Hc & Hpn & Hcn). unfold trimmed, updated. simpl. split_and!.
  - destruct (pl_product_id data); simpl; [apply strip_strip|done].
  - destruct (pl_customer_id data); simpl; [apply strip_strip|done].
  - intros name. destruct (validate_name (pl_product_name data)) eqn:Hn;
      simpl; [|by apply Hpn].
    intros Ho. apply (validate_name_trimmed (pl_product_name data)).
    by rewrite Hn.
  - intros name. destruct (validate_name (pl_customer_name data)) eqn:Hn;
      simpl; [|by apply Hcn].
    intros Ho. apply (validate_name_trimmed (pl_customer_name data)).
    by rewrite Hn.
Qed.

Lemma handle_trimmed `{SetIter} s now r :
  consistent s →
  (∀ k tx, (k, tx) ∈ transactions s → trimmed tx) →
  ∀ k tx, (k, tx) ∈ transactions (handle s now r).1 → trimmed tx.
Proof.
  intros Hs Ht. pose proof (c_nodup _ Hs) as Hnd.
  destruct r as [data|args|tx_id|tx_id data|tx_id| |limit]; simpl.
  - unfold create_transaction.
    destruct (_validate_payload_iff data false now) as [_ Hnf].
    destruct (_validate_payload data false now) as [n [|e errors]]; [|done].
    simpl in Hnf. specialize (Hnf eq_refl). subst n.
    destruct (n_product_id (normal_form data now)) as [product_id|] eqn:Hp,
      (n_customer_id (normal_form data now)) as [customer_id|] eqn:Hc,
      (n_quantity (normal_form data now)) as [quantity|] eqn:Hq,
      (n_price (normal_form data now)) as [price|] eqn:Hr; try done.
    simpl. intros k tx [[-> ->]|[_ Hin]]%DictFacts.elem_of_set; [|eauto|done].
    simpl in Hp, Hc. unfold trimmed. simpl. split_and!.
    + destruct (pl_product_id data); simplify_eq/=. apply strip_strip.
    + destruct (pl_customer_id data); simplify_eq/=. apply strip_strip.
    + apply validate_name_trimmed.
    + apply validate_name_trimmed.
  - unfold list_transactions.
    destruct (date_arg (a_start_date args) now),
      (date_arg (a_end_date args) now); try done.
    destruct (total_arg (a_min_total args)),
      (total_arg (a_max_total args)); try done.
    by destruct (_apply_filters _ _ _ _ _ _ _).
  - unfold get_transaction. by destruct (Dict.get _ _).
  - unfold update_transaction.
    destruct (Dict.get tx_id (transactions s)) as [tx0|] eqn:Hg; [|done].
    destruct (_validate_payload_iff data true now) as [_ Hnf].
    destruct (_validate_payload data true now) as [n [|e errors]]; [|done].
    simpl in Hnf. specialize (Hnf eq_refl). subst n. simpl.
    intros k tx [[-> ->]|[_ Hin]]%DictFacts.elem_of_set; [|eauto|done].
    apply (updated_trimmed tx0 data now), (Ht tx_id).
    by apply DictFacts.get_Some_elem.
  - unfold delete_transaction.
    destruct (Dict.get tx_id (transactions s)); simpl;
      intros k tx [Hin _]%DictFacts.elem_of_pop; eauto.
  - done.
  - unfold top_customers. by case_decide.
Qed.

Lemma serve_trimmed `{SetIter} reqs s :
  consistent s →
  (∀ k tx, (k, tx) ∈ transactions s → trimmed tx) →
  ∀ k tx, (k, tx) ∈ transactions (serve s reqs).1 → trimmed tx.
Proof.
  revert s. induction reqs as [|[now r] reqs IH]; intros s Hs Ht; [done|].
  simpl. pose proof (handle_consistent s now r Hs) as Hs'.
  pose proof (handle_trimmed s now r Hs Ht) as Ht'.
  destruct (handle s now r) as [s' resp]. specialize (IH s' Hs' Ht').
  by destruct (serve s' reqs).
Qed.

(** X16. After any sequence of requests the strings of every stored record
    are the stripped ones: its product id and customer id have no leading
    or trailing whitespace, and a product or customer name, when there is
    one, is stripped and not blank. *)
Theorem records_trimmed `{SetIter} (reqs : list (Z * request)) (k : Z)
    (tx : Tx.t) :
  (k, tx) ∈ transactions (run reqs) → trimmed tx.
Proof.
  apply serve_trimmed; [apply initial_consistent|].
  intros k' tx' Hin. by apply elem_of_nil in Hin.
Qed.
(** ** The further properties, run *)





(** X4 on the third scenario of the test suite: record 2 deleted. *)
Lemma delete_then_get_witness :
  let s := run (H := cpython_table) three_sales in
  let s' := (delete_transaction s 2).1 in
  let v := _serialize_transaction
             (Tx.mk 2 "P1" None "C2" None 1 (Qc_of_Z 15) 0) in
  Dict.get 2 (transactions s) = Some (v_tx v)
  ∧ get_transaction s' 2 = (s', NotFound)
  ∧ update_transaction s' 2 empty_payload 0 = (s', NotFound)
  ∧ delete_transaction s' 2 = (s', NotFound)
  ∧ next_id s' = next_id s
  ∧ ∀ k, k ≠ 2 → Dict.get k (transactions s') = Dict.get k (transactions s).
Proof.
  intros s s' v. apply (delete_then_get s s' 2 v empty_payload 0).
  reflexivity.
Defined.






(** X13 on the third scenario of the test suite: the page of one record
    from offset 1. *)
Lemma pages_tile_witness :
  ∃ count page1 page2 whole,
    (list_transactions (H := cpython_table)
       (run (H := cpython_table) three_sales)
       (args_of (paged everything (Some 1) (Some 1))) 0).2
    = Listing count page1
    ∧ (list_transactions (H := cpython_table)
         (run (H := cpython_table) three_sales)
         (args_of (paged everything None (Some (1 + 1)))) 0).2
      = Listing count page2
    ∧ (list_transactions (H := cpython_table)
         (run (H := cpython_table) three_sales)
         (args_of (paged everything None (Some 1))) 0).2
      = Listing count whole
    ∧ whole = page1 ++ page2
    ∧ (length page1 ≤ Z.to_nat 1)%nat.
Proof.
  apply (pages_tile (H := cpython_table) three_sales everything 0 1 1); lia.
Defined.

(** X14 on the third scenario of the test suite: an unreadable start date
    together with an unreadable minimum, and the unreadable minimum alone. *)
Lemma listing_refused_witness :
  let s := run (H := cpython_table) three_sales in
  list_transactions (H := cpython_table) s
    (ListArgs None None (Some IsoInvalid) None (Some None) None None None) 0
  = (s, Errors ["timestamp must be ISO 8601"%string])
  ∧ list_transactions (H := cpython_table) s
      (ListArgs None None None None (Some None) None None None) 0
    = (s, Errors ["min_total/max_total must be numbers"%string]).
Proof.
  intros s. split.
  - apply (proj1 (listing_refused (H := cpython_table) s
                    (ListArgs None None (Some IsoInvalid) None (Some None)
                              None None None) 0)).
    by left.
  - apply (proj2 (listing_refused (H := cpython_table) s
                    (ListArgs None None None None (Some None) None None None)
                    0)); [done|done|by left].
Defined.

(** X15 on three units at 1.99: the reported total is 5.97. *)
Lemma serialized_total_witness :
  let tx := Tx.mk 1 "P1" None "C1" None 3 (Qc_of_Z 199 / Qc_of_Z 100)%Qc 0 in
  v_total (_serialize_transaction tx) = _transaction_total tx.
Proof.
  intros tx.
  apply (proj2 (proj2 (proj2 (serialized_total tx))) 199). reflexivity.
Defined.

(** X16 on a sale with padded ids and names. *)
Lemma records_trimmed_witness :
  trimmed (Tx.mk 1 "P1" None "C1" (Some "Ann") 1 (Qc_of_Z 5) 0).
Proof.
  apply (records_trimmed (H := cpython_table)
           [(0, POST_transactions
                  (Payload (Some "  P1 ") (Some "  ") (Some "C1  ")
                           (Some " Ann ") (Some (Some 1))
                           (Some (Some (Qc_of_Z 5))) None))] 1).
  left.
Defined.
